(** * RoteadorMetroLondres: a shallow embedding of CP2.py

    The development follows the source file top-down: the graph builder
    [_build_graph], the cost model ([_get_tempo_espera],
    [_get_tempo_deslocamento]), the memoised recursive enumerator
    [_encontrar_caminhos_recursivo] and the public entry point
    [encontrar_caminho].

    Modelling conventions.
    - Python [str] values are ASCII [string]s.
    - Python floats are idealised as exact rationals ([Q]); the great-circle
      distance [_haversine], a transcendental float computation, is a
      section variable.
    - A [datetime] is the number of minutes elapsed since 1900-01-01 00:00
      (the date that [strptime] supplies for a bare [%H:%M]); its [hour]
      attribute is recovered by [dt_hour].
    - Exceptions are an explicit [Raise] outcome; the instance attribute
      [self.memo] is threaded through every call as explicit state. *)

From Stdlib Require Import ZArith QArith Qround Qabs String Ascii Permutation Sorted.
From stdpp Require Import gmap strings list fin_maps.

Set Warnings "-clear-no-such-hyp".

Local Open Scope string_scope.
Local Open Scope Z_scope.
Local Open Scope list_scope.

(** ** Outcomes of fallible code *)

Inductive exception := KeyError | ValueError.

Inductive outcome (A : Type) : Type :=
| Ok (a : A)
| Raise (e : exception).
Arguments Ok {A} a.
Arguments Raise {A} e.

(** Recursive code is run with a recursion budget: [None] means that the
    budget was exhausted before the call returned. *)
Definition fueled (A : Type) : Type := option (outcome A).

Definition fbind {A B} (m : fueled A) (k : A → fueled B) : fueled B :=
  match m with
  | Some (Ok a) => k a
  | Some (Raise e) => Some (Raise e)
  | None => None
  end.

Definition lift {A} (o : outcome A) : fueled A := Some o.

Notation "'LET' x ':=' m 'IN' k" := (fbind m (λ x, k))
  (at level 10, x pattern, m at level 100, k at level 200).

(** ** String primitives used by the source *)

Module Str.

(** [str.isspace] restricted to ASCII: TAB..CR, FS..US and SPACE. *)
Definition is_space (a : ascii) : bool :=
  let n := nat_of_ascii a in
  ((9 <=? n)%nat && (n <=? 13)%nat) || ((28 <=? n)%nat && (n <=? 32)%nat).

Fixpoint lstrip (s : string) : string :=
  match s with
  | EmptyString => EmptyString
  | String a s' => if is_space a then lstrip s' else s
  end.

Definition rstrip (s : string) : string :=
  String.rev (lstrip (String.rev s)).

(** [s.strip()] *)
Definition strip (s : string) : string := rstrip (lstrip s).

(** [s.split(sep)] for a non-empty [sep]: leftmost non-overlapping
    occurrences; [skip] counts the separator characters still to drop and
    [cur] is the current field, reversed. *)
Fixpoint split_go (sep s : string) (skip : nat) (cur : string) : list string :=
  match s with
  | EmptyString => [String.rev cur]
  | String a s' =>
      match skip with
      | S k => split_go sep s' k cur
      | O =>
          if String.prefix sep s
          then String.rev cur :: split_go sep s' (String.length sep - 1) EmptyString
          else split_go sep s' O (String a cur)
      end
  end.

Definition split (sep s : string) : list string := split_go sep s O EmptyString.

Definition newline : string := String (ascii_of_nat 10) EmptyString.

End Str.

(** ** Data model *)

Record conexao := Conexao { vizinho : string; linha : string }.

Global Instance conexao_eq_dec : EqDecision conexao.
Proof. solve_decision. Defined.

(** Candidate path: the dict built at lines 101 and 137-142. *)
Record Caminho := MkCaminho {
  caminho : list string;
  tempo : Q;
  linhas : list string;
  trocas : Z
}.

(** The two accepted shapes of [edges_data]. A tuple of the mapping form is a
    list, since the code only inspects its length and its first two items. *)
Inductive edges_data :=
| EdgesDict (items : list (string * list (list string)))
| EdgesText (text : string).

(** ** [_build_graph] *)

(** [graph[k].append(c)] for a key known to be present. *)
Definition append_adj (k : string) (c : conexao)
    (g : gmap string (list conexao)) : gmap string (list conexao) :=
  alter (λ adj, (adj ++ [c])%list) k g.

(** The two reciprocal appends of lines 47-48 and 55-56. *)
Definition add_edge (origem destino nome_linha : string)
    (g : gmap string (list conexao)) : gmap string (list conexao) :=
  append_adj destino (Conexao origem nome_linha)
    (append_adj origem (Conexao destino nome_linha) g).

(** Lines 42-48: one pair of the mapping form. *)
Definition add_par (nome_linha : string) (g : gmap string (list conexao))
    (par : list string) : gmap string (list conexao) :=
  match par with
  | p0 :: p1 :: _ =>
      let origem := Str.strip p0 in
      let destino := Str.strip p1 in
      if bool_decide (origem ∉ dom g ∨ destino ∉ dom g) then g
      else add_edge origem destino nome_linha g
  | _ => g
  end.

Definition add_item (g : gmap string (list conexao))
    (item : string * list (list string)) : gmap string (list conexao) :=
  fold_left (add_par item.1) item.2 g.

(** Lines 51-56: one line of the flat form. *)
Definition add_line (g : gmap string (list conexao)) (line : string)
    : outcome (gmap string (list conexao)) :=
  match Str.strip <$> Str.split " - " line with
  | [origem; destino; nome_linha] =>
      match g !! origem with
      | None => Raise KeyError
      | Some _ =>
          let g1 := append_adj origem (Conexao destino nome_linha) g in
          match g1 !! destino with
          | None => Raise KeyError
          | Some _ => Ok (append_adj destino (Conexao origem nome_linha) g1)
          end
      end
  | _ => Raise ValueError
  end.

Fixpoint add_lines (g : gmap string (list conexao)) (lines : list string)
    : outcome (gmap string (list conexao)) :=
  match lines with
  | [] => Ok g
  | line :: rest =>
      match add_line g line with
      | Ok g' => add_lines g' rest
      | Raise e => Raise e
      end
  end.

(** [data.strip().split("\n")] *)
Definition text_lines (text : string) : list string :=
  Str.split Str.newline (Str.strip text).

Definition _build_graph (stations : gmap string (Q * Q)) (data : edges_data)
    : outcome (gmap string (list conexao)) :=
  let graph : gmap string (list conexao) := (λ _, []) <$> stations in
  match data with
  | EdgesDict items => Ok (fold_left add_item items graph)
  | EdgesText text => add_lines graph (text_lines text)
  end.

(** ** Clock *)

(** [hora_atual.hour] of an instant given in minutes. *)
Definition dt_hour (t : Q) : Z := (Qfloor t / 60) mod 24.

(** [datetime.strptime(s, "%H:%M")]. The library turns the format into the
    regular expression [(2[0-3]|[0-1]\d|\d):([0-5]\d|\d)], matches it at the
    start of the input with ordered alternatives and backtracking, and then
    rejects the input unless the match covers all of it. *)
Module Strptime.

Definition digit (a : ascii) : option Z :=
  let n := nat_of_ascii a in
  if ((48 <=? n)%nat && (n <=? 57)%nat)%bool then Some (Z.of_nat n - 48) else None.

Definition in_range (lo hi : Z) (a : ascii) : option Z :=
  match digit a with
  | Some d => if ((lo <=? d) && (d <=? hi))%bool then Some d else None
  | None => None
  end.

(** The alternatives of [%H] in order, each with the remaining input. *)
Definition alt_H (s : string) : list (Z * string) :=
  (match s with
   | String a (String b r) =>
       match in_range 2 2 a, in_range 0 3 b with
       | Some x, Some y => [(10 * x + y, r)]
       | _, _ => []
       end
   | _ => []
   end ++
   match s with
   | String a (String b r) =>
       match in_range 0 1 a, digit b with
       | Some x, Some y => [(10 * x + y, r)]
       | _, _ => []
       end
   | _ => []
   end ++
   match s with
   | String a r => match digit a with Some x => [(x, r)] | None => [] end
   | EmptyString => []
   end)%list.

Definition alt_M (s : string) : list (Z * string) :=
  (match s with
   | String a (String b r) =>
       match in_range 0 5 a, digit b with
       | Some x, Some y => [(10 * x + y, r)]
       | _, _ => []
       end
   | _ => []
   end ++
   match s with
   | String a r => match digit a with Some x => [(x, r)] | None => [] end
   | EmptyString => []
   end)%list.

Definition colon (s : string) : list string :=
  match s with
  | String a r => if Ascii.eqb a ":" then [r] else []
  | EmptyString => []
  end.

(** All matches of the expression, in the order the backtracking matcher
    finds them. *)
Definition matches (s : string) : list (Z * Z * string) :=
  '(h, r1) ← alt_H s; r2 ← colon r1; '(m, r3) ← alt_M r2; [(h, m, r3)].

Definition strptime_HM (s : string) : outcome Q :=
  match matches s with
  | (h, m, EmptyString) :: _ => Ok (inject_Z (60 * h + m))
  | _ => Raise ValueError
  end.

End Strptime.

(** ** Constants *)

Definition VELOCIDADE_TREM_KMH : Q := 35.
Definition PENALIDADE_TROCA_LINHA_MIN : Q := 3.

(** ** The router *)

Record Roteador := MkRoteador {
  stations : gmap string (Q * Q);
  graph : gmap string (list conexao);
  memo : gmap (string * gset string) (list Caminho)
}.

(** Outcome of one call of the public entry point: the three reported
    failures (each a [print] followed by [return]) or the selected route. *)
Inductive Resposta :=
| ErroEstacao
| NenhumCaminho
| ModoInvalido
| Rota (resultado_final : Caminho).

Section Engine.

(** Great-circle distance in km between two coordinate pairs: the
    arithmetic of lines 62-76, which has no exact rational counterpart.
    It is taken here as returning a number. The [ValueError] that
    [math.sqrt(1 - a)] raises at line 74 when rounding brings [a] above 1
    (stations almost opposite on the globe) and the recursion limit of the
    interpreter have no counterpart: no statement below says that a run of
    the program is free of them. *)
Variable great_circle_km : Q * Q → Q * Q → Q.

(** *** Cost model *)

Definition _get_coords (stations : gmap string (Q * Q)) (estacao : string)
    : outcome (Q * Q) :=
  match stations !! estacao with
  | Some val => Ok val
  | None => Raise KeyError
  end.

Definition _haversine (stations : gmap string (Q * Q))
    (estacao1 estacao2 : string) : outcome Q :=
  match _get_coords stations estacao1 with
  | Raise e => Raise e
  | Ok c1 =>
      match _get_coords stations estacao2 with
      | Raise e => Raise e
      | Ok c2 => Ok (great_circle_km c1 c2)
      end
  end.

Definition _get_tempo_deslocamento (stations : gmap string (Q * Q))
    (estacao1 estacao2 : string) : outcome Q :=
  match _haversine stations estacao1 estacao2 with
  | Raise e => Raise e
  | Ok distancia_km => Ok ((distancia_km / VELOCIDADE_TREM_KMH) * 60)%Q
  end.

Definition _get_tempo_espera (hora_atual : Q) : Q :=
  if dt_hour hora_atual <? 11 then 3 # 2
  else if dt_hour hora_atual >=? 18 then 2
  else 1.

(** Lines 122-124. *)
Definition troca_de_linha (linha_anterior : option string)
    (linha_atual : string) : bool :=
  match linha_anterior with
  | None => false
  | Some l => bool_decide (l ≠ linha_atual)
  end.

(** Lines 137-142. *)
Definition caminho_completo (atual linha_atual : string) (troca : bool)
    (tempo_trecho : Q) (sub_caminho : Caminho) : Caminho :=
  {| caminho := atual :: caminho sub_caminho;
     tempo := (tempo_trecho + tempo sub_caminho)%Q;
     linhas := linha_atual :: linhas sub_caminho;
     trocas := (if troca then 1 else 0) + trocas sub_caminho |}.

(** *** [_encontrar_caminhos_recursivo] *)

Section Recursivo.

Variable stns : gmap string (Q * Q).
Variable grafo : gmap string (list conexao).
Variable destino : string.

(** The loop of lines 113-143 over the adjacency entries still to visit;
    [rec] is the recursive call of line 131. *)
Fixpoint percorrer
    (rec : string → gset string → Q → option string →
           gmap (string * gset string) (list Caminho) →
           fueled (list Caminho * gmap (string * gset string) (list Caminho)))
    (atual : string) (visitados : gset string) (hora_atual : Q)
    (linha_anterior : option string) (conexoes : list conexao)
    (caminhos_encontrados : list Caminho)
    (cache : gmap (string * gset string) (list Caminho))
    : fueled (list Caminho * gmap (string * gset string) (list Caminho)) :=
  match conexoes with
  | [] => Some (Ok (caminhos_encontrados, cache))
  | c :: resto =>
      if bool_decide (vizinho c ∈ visitados)
      then percorrer rec atual visitados hora_atual linha_anterior resto
             caminhos_encontrados cache
      else
        let tempo_espera := _get_tempo_espera hora_atual in
        LET tempo_deslocamento :=
          lift (_get_tempo_deslocamento stns atual (vizinho c)) IN
        let troca := troca_de_linha linha_anterior (linha c) in
        let penalidade := if troca then PENALIDADE_TROCA_LINHA_MIN else 0%Q in
        let tempo_trecho :=
          (tempo_espera + tempo_deslocamento + penalidade)%Q in
        let proxima_hora := (hora_atual + tempo_trecho)%Q in
        LET (sub_caminhos, cache') :=
          rec (vizinho c) (visitados ∪ {[atual]}) proxima_hora
              (Some (linha c)) cache IN
        percorrer rec atual visitados hora_atual linha_anterior resto
          (caminhos_encontrados ++
             map (caminho_completo atual (linha c) troca tempo_trecho)
                 sub_caminhos)%list
          cache'
  end.

Fixpoint _encontrar_caminhos_recursivo (fuel : nat) (atual : string)
    (visitados : gset string) (hora_atual : Q)
    (linha_anterior : option string)
    (cache : gmap (string * gset string) (list Caminho))
    : fueled (list Caminho * gmap (string * gset string) (list Caminho)) :=
  match fuel with
  | O => None
  | S fuel' =>
      if bool_decide (atual = destino)
      then Some (Ok ([MkCaminho [destino] 0 [] 0], cache))
      else
        let estado := (atual, visitados) in
        match cache !! estado with
        | Some guardado => Some (Ok (guardado, cache))
        | None =>
            match grafo !! atual with
            | None => Some (Raise KeyError)
            | Some conexoes =>
                LET (caminhos_encontrados, cache') :=
                  percorrer (_encontrar_caminhos_recursivo fuel')
                    atual visitados hora_atual linha_anterior conexoes
                    [] cache IN
                Some (Ok (caminhos_encontrados,
                          <[estado := caminhos_encontrados]> cache'))
            end
        end
  end.

End Recursivo.

(** *** Route selection (lines 227-241) *)

Definition Qltb (x y : Q) : bool := negb (Qle_bool y x).

(** [min(todos, key=tempo)] keeps the first of the minimal items. *)
Fixpoint min_go (best : Caminho) (l : list Caminho) : Caminho :=
  match l with
  | [] => best
  | x :: l' => min_go (if Qltb (tempo x) (tempo best) then x else best) l'
  end.

(** [max(todos, key=tempo)] keeps the first of the maximal items. *)
Fixpoint max_go (best : Caminho) (l : list Caminho) : Caminho :=
  match l with
  | [] => best
  | x :: l' => max_go (if Qltb (tempo best) (tempo x) then x else best) l'
  end.

(** [sorted(todos, key=tempo)]: a stable ascending sort. *)
Fixpoint inserir (x : Caminho) (l : list Caminho) : list Caminho :=
  match l with
  | [] => [x]
  | y :: l' => if Qltb (tempo y) (tempo x) then y :: inserir x l' else x :: l
  end.

Fixpoint sorted (l : list Caminho) : list Caminho :=
  match l with
  | [] => []
  | x :: l' => inserir x (sorted l')
  end.

Definition selecionar (modo : string) (todos_caminhos : list Caminho)
    : Resposta :=
  match todos_caminhos with
  | [] => NenhumCaminho
  | primeiro :: resto =>
      if bool_decide (modo = "menor") then Rota (min_go primeiro resto)
      else if bool_decide (modo = "maior") then Rota (max_go primeiro resto)
      else if bool_decide (modo = "medio") then
        let caminhos_ordenados := sorted todos_caminhos in
        let idx := ((length caminhos_ordenados - 1) / 2)%nat in
        match caminhos_ordenados !! idx with
        | Some resultado_final => Rota resultado_final
        | None => NenhumCaminho
        end
      else ModoInvalido
  end.

(** *** The instance *)

Definition __init__ (stations_data : gmap string (Q * Q))
    (edges_data : edges_data) : outcome Roteador :=
  match _build_graph stations_data edges_data with
  | Ok g => Ok (MkRoteador stations_data g ∅)
  | Raise e => Raise e
  end.

(** Recursion budget granted to one query; [recursivo_terminates] shows
    that it is never exhausted. *)
Definition budget (r : Roteador) : nat := (2 * size (dom (graph r)) + 2)%nat.

(** The public entry point. Console output and the map rendering are
    left out; the instance after the call carries the updated cache. A
    raised exception aborts the query. *)
Definition encontrar_caminho (r : Roteador)
    (origem destino hora_inicio_str modo : string)
    : fueled (Resposta * Roteador) :=
  if bool_decide (origem ∉ dom (stations r) ∨ destino ∉ dom (stations r))
  then Some (Ok (ErroEstacao, r))
  else
    LET hora_inicio := lift (Strptime.strptime_HM hora_inicio_str) IN
    LET (todos_caminhos, cache') :=
      _encontrar_caminhos_recursivo (stations r) (graph r) destino
        (budget r) origem ∅ hora_inicio None (memo r) IN
    Some (Ok (selecionar modo todos_caminhos,
              MkRoteador (stations r) (graph r) cache')).

End Engine.

(** * Reference notions and sample networks *)

(** The number of adjacent pairs of a line sequence that differ. *)
Fixpoint conta_trocas (linhas : list string) : Z :=
  match linhas with
  | l1 :: ((l2 :: _) as resto) =>
      (if bool_decide (l1 ≠ l2) then 1 else 0) + conta_trocas resto
  | _ => 0
  end.

Section Reference.

Variable great_circle_km : Q * Q → Q * Q → Q.
Variable stns : gmap string (Q * Q).

(** The cost of one edge as the cost model states it: the wait bracket of
    the departure instant, the travel time, and the transfer penalty when
    a defined incoming line differs from the outgoing one. *)
Definition edge_time (distance_km : Q) (departure_time : Q)
    (incoming_line : option string) (outgoing_line : string) : Q :=
  (_get_tempo_espera departure_time
   + (distance_km / VELOCIDADE_TREM_KMH) * 60
   + match incoming_line with
     | Some l => if bool_decide (l = outgoing_line) then 0
                 else PENALIDADE_TROCA_LINHA_MIN
     | None => 0
     end)%Q.

(** The total of [edge_time] along a path that leaves [atual] at instant
    [clock] having arrived on [incoming]: each edge is charged at the clock
    advanced by the edges before it and with the line really taken. *)
Fixpoint tempo_esperado (clock : Q) (incoming : option string)
    (atual : string) (resto : list string) (linhas : list string) : Q :=
  match resto, linhas with
  | prox :: resto', l :: linhas' =>
      match stns !! atual, stns !! prox with
      | Some c1, Some c2 =>
          let dt := edge_time (great_circle_km c1 c2) clock incoming l in
          (dt + tempo_esperado (clock + dt) (Some l) prox resto' linhas')%Q
      | _, _ => 0%Q
      end
  | _, _ => 0%Q
  end.

Definition tempo_esperado_de (hora_inicio : Q) (c : Caminho) : Q :=
  match caminho c with
  | [] => 0%Q
  | origem :: resto => tempo_esperado hora_inicio None origem resto (linhas c)
  end.

End Reference.

(** The measure that decreases at every recursive call of the enumerator:
    twice the number of graph keys still outside the visited set, plus one
    when the current station is already inside it. *)
Definition medida (grafo : gmap string (list conexao)) (atual : string)
    (visitados : gset string) : nat :=
  (2 * size (dom grafo ∖ visitados)
   + (if bool_decide (atual ∈ visitados) then 1 else 0))%nat.

(** Lines of the flat form that the builder cannot accept: not exactly three
    fields, or an endpoint that is not a declared station. *)
Definition linha_invalida (stations : gmap string (Q * Q)) (line : string)
    : Prop :=
  match Str.strip <$> Str.split " - " line with
  | [origem; destino; _] => origem ∉ dom stations ∨ destino ∉ dom stations
  | _ => True
  end.

(** Pairs of the mapping form that name an undeclared station. *)
Definition par_pendente (stations : gmap string (Q * Q)) (par : list string)
    : Prop :=
  match par with
  | p0 :: p1 :: _ =>
      Str.strip p0 ∉ dom stations ∨ Str.strip p1 ∉ dom stations
  | _ => False
  end.

(** Ascending order of total time. *)
Definition por_tempo (a b : Caminho) : Prop := (tempo a <= tempo b)%Q.

(** Adjacency is symmetric and closed under the graph's keys. *)
Definition simetrico (g : gmap string (list conexao)) : Prop :=
  ∀ a b l adj, g !! a = Some adj → Conexao b l ∈ adj →
    ∃ adj', g !! b = Some adj' ∧ Conexao a l ∈ adj'.

(** No station is listed as its own neighbour. *)
Definition sem_lacos (g : gmap string (list conexao)) : Prop :=
  map_Forall (λ a adj, Forall (λ c, vizinho c ≠ a) adj) g.

(** A candidate for the state (station [a], visited set [V]) that is what
    the enumerator is meant to return: a simple path from [a] to the
    destination that avoids [V] after its first station, with one line per
    edge. *)
Definition bom_caminho (destino a : string) (V : gset string) (p : Caminho)
    : Prop :=
  ∃ resto, caminho p = a :: resto
           ∧ NoDup (a :: resto)
           ∧ (∀ x, x ∈ resto → x ∉ V)
           ∧ last (caminho p) = Some destino
           ∧ length (caminho p) = S (length (linhas p)).

(** Every cached entry holds such candidates for one and the same
    destination. *)
Definition cache_de (destino : string)
    (cache : gmap (string * gset string) (list Caminho)) : Prop :=
  ∀ a V ps, cache !! (a, V) = Some ps → Forall (bom_caminho destino a V) ps.

(** What the adjacency list of [a] gains when the edge [o - d] is added. *)
Definition ganho (o d l a : string) : list conexao :=
  ((if decide (o = a) then [Conexao d l] else []) ++
   (if decide (d = a) then [Conexao o l] else []))%list.

(** Invariant of both loops of the builder. *)
Definition bem_formado (stations : gmap string (Q * Q))
    (g : gmap string (list conexao)) : Prop :=
  dom g = dom stations ∧ simetrico g.

Module Exemplo.

(** Station tables for the sample networks: the i-th name is placed at
    latitude i, longitude 0. *)
Definition coords (names : list string) : gmap string (Q * Q) :=
  list_to_map (imap (λ i n, (n, (inject_Z (Z.of_nat i), 0%Q))) names).

(** A stand-in distance for runs that need a concrete one. *)
Definition taxi (a b : Q * Q) : Q :=
  (Qabs (a.1 - b.1) + Qabs (a.2 - b.2))%Q.

(** A - B - C on one line. *)
Definition estacoes_linha : gmap string (Q * Q) := coords ["A"; "B"; "C"].
Definition arestas_linha : edges_data :=
  EdgesDict [("L", [["A"; "B"]; ["B"; "C"]])].

(** Two lines share the track A - X; X - D continues on the first. *)
Definition estacoes_paralela : gmap string (Q * Q) := coords ["A"; "X"; "D"].
Definition arestas_paralela : edges_data :=
  EdgesDict [("L1", [["A"; "X"]; ["X"; "D"]]); ("L2", [["A"; "X"]])].

(** No parallel edges: X is reached over A-B-C-X and over A-C-B-X. *)
Definition estacoes_losango : gmap string (Q * Q) :=
  coords ["A"; "B"; "C"; "X"; "D"].
Definition arestas_losango : edges_data :=
  EdgesDict [("L1", [["A"; "B"]; ["B"; "C"]; ["C"; "X"]; ["X"; "D"]]);
             ("L2", [["A"; "C"]; ["B"; "X"]])].

(** An edge from A to itself. *)
Definition estacoes_laco : gmap string (Q * Q) := coords ["A"; "B"].
Definition arestas_laco : edges_data :=
  EdgesDict [("L", [["A"; "A"]; ["A"; "B"]])].

(** Four candidate paths with total times 5, 2, 9 and 2. *)
Definition quatro_caminhos : list Caminho :=
  [MkCaminho ["A"; "B"] 5 ["L"] 0;
   MkCaminho ["A"; "C"; "B"] 2 ["L"; "L"] 0;
   MkCaminho ["A"; "D"; "B"] 9 ["L"; "M"] 1;
   MkCaminho ["A"; "E"; "B"] 2 ["M"; "M"] 0].

(** The graph of a network whose edge data the builder accepts. *)
Definition grafo_de (st : gmap string (Q * Q)) (ed : edges_data)
    : gmap string (list conexao) :=
  match _build_graph st ed with
  | Ok g => g
  | Raise _ => ∅
  end.

(** Runs the queries in order on one instance and collects the answers. *)
Fixpoint consultas (gc : Q * Q → Q * Q → Q) (r : Roteador)
    (qs : list (string * string * string * string))
    : fueled (list Resposta * Roteador) :=
  match qs with
  | [] => Some (Ok ([], r))
  | (origem, destino, hora, modo) :: qs' =>
      LET (resp, r') := encontrar_caminho gc r origem destino hora modo IN
      LET (resps, r'') := consultas gc r' qs' IN
      Some (Ok (resp :: resps, r''))
  end.

(** Stations, lines and transfer count of a candidate path. *)
Definition resumo (c : Caminho) : list string * list string * Z :=
  (caminho c, linhas c, trocas c).

(** The routes answered to successive queries on one new instance. *)
Definition rotas (gc : Q * Q → Q * Q → Q) (st : gmap string (Q * Q))
    (ed : edges_data) (qs : list (string * string * string * string))
    : option (list (option (list string * list string * Z))) :=
  match __init__ st ed with
  | Ok r =>
      match consultas gc r qs with
      | Some (Ok (resps, _)) =>
          Some ((λ resp, match resp with
                         | Rota c => Some (resumo c)
                         | _ => None
                         end) <$> resps)
      | _ => None
      end
  | Raise _ => None
  end.

(** The cache keys held by the instance after the queries, each visited
    set listed by its elements. *)
Definition chaves (gc : Q * Q → Q * Q → Q) (st : gmap string (Q * Q))
    (ed : edges_data) (qs : list (string * string * string * string))
    : option (list (string * list string)) :=
  match __init__ st ed with
  | Ok r =>
      match consultas gc r qs with
      | Some (Ok (_, r')) =>
          Some ((λ k, (k.1, elements k.2)) <$> elements (dom (memo r')))
      | _ => None
      end
  | Raise _ => None
  end.

(** All candidate paths that the enumerator returns to the entry point
    for one query on a new instance. *)
Definition candidatos (gc : Q * Q → Q * Q → Q) (st : gmap string (Q * Q))
    (ed : edges_data) (origem destino : string) (hora_inicio : Q)
    : option (list (list string * list string * Z)) :=
  match __init__ st ed with
  | Ok r =>
      match _encontrar_caminhos_recursivo gc (stations r) (graph r) destino
              (budget r) origem ∅ hora_inicio None (memo r) with
      | Some (Ok (todos, _)) => Some (resumo <$> todos)
      | _ => None
      end
  | Raise _ => None
  end.

End Exemplo.

(** * Further notions *)

(** ** The graph builder, edge by edge *)

(** The trimmed fields of one line of the flat form. *)
Definition campos (line : string) : list string :=
  Str.strip <$> Str.split " - " line.

(** The edge (origin, destination, line) that a pair of the mapping form
    contributes: none when the pair is too short or names an undeclared
    station. *)
Definition aresta_do_par (stations : gmap string (Q * Q))
    (nome_linha : string) (par : list string)
    : list (string * string * string) :=
  match par with
  | p0 :: p1 :: _ =>
      if bool_decide (Str.strip p0 ∈ dom stations ∧ Str.strip p1 ∈ dom stations)
      then [(Str.strip p0, Str.strip p1, nome_linha)]
      else []
  | _ => []
  end.

(** The edges of a mapping, in iteration order. *)
Definition arestas_dict (stations : gmap string (Q * Q))
    (items : list (string * list (list string)))
    : list (string * string * string) :=
  flat_map (λ item, flat_map (aresta_do_par stations item.1) item.2) items.

(** The edge written on one line of the flat form. *)
Definition aresta_da_linha (line : string) : list (string * string * string) :=
  match campos line with
  | [origem; destino; nome_linha] => [(origem, destino, nome_linha)]
  | _ => []
  end.

(** The edges of a text, line by line. *)
Definition arestas_texto (text : string) : list (string * string * string) :=
  flat_map aresta_da_linha (text_lines text).

(** The adjacency list that a sequence of edges gives station [a]: for each
    edge in order, the destination if [a] is its origin, then the origin if
    [a] is its destination. *)
Definition adjacencia (es : list (string * string * string)) (a : string)
    : list conexao :=
  flat_map (λ e, ganho e.1.1 e.1.2 e.2 a) es.

(** The exception, if any, that one line of the flat form raises. *)
Definition erro_da_linha (stations : gmap string (Q * Q)) (line : string)
    : option exception :=
  match campos line with
  | [origem; destino; _] =>
      if bool_decide (origem ∈ dom stations) then
        if bool_decide (destino ∈ dom stations) then None else Some KeyError
      else Some KeyError
  | _ => Some ValueError
  end.

(** ** Candidate paths as walks *)

(** [a], then [resto], is a walk in the graph on which the i-th step is an
    adjacency entry carrying the i-th line of [ls]. *)
Fixpoint passeio (g : gmap string (list conexao)) (a : string)
    (resto ls : list string) : Prop :=
  match resto, ls with
  | [], [] => True
  | b :: resto', l :: ls' =>
      (∃ adj, g !! a = Some adj ∧ Conexao b l ∈ adj) ∧ passeio g b resto' ls'
  | _, _ => False
  end.

(** A candidate that starts at [a], walks the graph over its own lines,
    visits declared stations only after its first one, and reports between
    zero and one transfer per edge. *)
Definition candidato_valido (stns : gmap string (Q * Q))
    (g : gmap string (list conexao)) (a : string) (p : Caminho) : Prop :=
  ∃ resto, caminho p = a :: resto
           ∧ passeio g a resto (linhas p)
           ∧ Forall (λ s, s ∈ dom stns) resto
           ∧ 0 <= trocas p <= Z.of_nat (length (linhas p)).

(** Every cached candidate satisfies [P] at the state it is stored under. *)
Definition cache_inv (P : string → gset string → Caminho → Prop)
    (cache : gmap (string * gset string) (list Caminho)) : Prop :=
  ∀ a V ps, cache !! (a, V) = Some ps → Forall (P a V) ps.

(** The candidates [ps] cover every simple walk from [a] to [destino] that
    stays out of [V] after its first station. *)
Definition completo (g : gmap string (list conexao)) (destino a : string)
    (V : gset string) (ps : list Caminho) : Prop :=
  ∀ resto ls,
    passeio g a resto ls → NoDup (a :: resto) → (∀ x, x ∈ resto → x ∉ V) →
    last (a :: resto) = Some destino →
    ∃ p, p ∈ ps ∧ caminho p = a :: resto ∧ linhas p = ls.

Definition cache_completo (g : gmap string (list conexao)) (destino : string)
    (cache : gmap (string * gset string) (list Caminho)) : Prop :=
  ∀ a V ps, cache !! (a, V) = Some ps → completo g destino a V ps.

(** An instance as the constructor leaves it and as queries keep it: the
    graph has the declared stations as keys and lists only keys as
    neighbours. *)
Definition consistente (r : Roteador) : Prop :=
  dom (graph r) = dom (stations r) ∧
  ∀ a adj c, graph r !! a = Some adj → c ∈ adj → vizinho c ∈ dom (graph r).

(** One query: origin, destination, start time, mode. *)
Definition origem_de (q : string * string * string * string) : string :=
  q.1.1.1.
Definition destino_de (q : string * string * string * string) : string :=
  q.1.1.2.

(** The destination can be reached from the origin over edges of the
    graph. *)
Definition alcancavel (g : gmap string (list conexao))
    (origem destino : string) : Prop :=
  ∃ resto ls, passeio g origem resto ls ∧ last (origem :: resto) = Some destino.

(** ** [_visualizar_caminho] *)

(** What the rendering can raise: [KeyError] for a station without
    coordinates, [IndexError] for an index past the end of a list. *)
Inductive erro_mapa := MapaKeyError | MapaIndexError.

(** The calls made on the map library, in the order the code makes them. *)
Inductive desenho :=
| Mapa (location : Q * Q) (zoom_start : Z)
| Marcador (location : Q * Q) (popup color icon : string)
| Polilinha (ponto_a ponto_b : Q * Q) (color tooltip : string)
| Salvar (arquivo : string).

Definition cores_linhas : list (string * string) :=
  [("Victoria", "lightblue"); ("Northern", "black"); ("Bakerloo", "brown");
   ("Jubilee", "gray"); ("Circle", "yellow")].

(** [d.get(k, padrao)] *)
Fixpoint dict_get (d : list (string * string)) (k padrao : string) : string :=
  match d with
  | [] => padrao
  | (k', v) :: d' => if bool_decide (k' = k) then v else dict_get d' k padrao
  end.

(** Lines 171-174, for index [i] of a path of [n] stations. *)
Definition cor_marcador (i n : nat) : string :=
  if (i =? 0)%nat then "green" else if (i =? n - 1)%nat then "red" else "blue".

Definition icone (i n : nat) : string :=
  if (i =? 0)%nat then "play" else if (i =? n - 1)%nat then "stop" else "info".

(** The loop of lines 168-180 from index [i] on. *)
Fixpoint marcadores (stns : gmap string (Q * Q)) (n i : nat)
    (nomes : list string) : erro_mapa + list desenho :=
  match nomes with
  | [] => inr []
  | nome_estacao :: resto =>
      match stns !! nome_estacao with
      | None => inl MapaKeyError
      | Some coords =>
          match marcadores stns n (S i) resto with
          | inl e => inl e
          | inr ms =>
              inr (Marcador coords
                     (String.append "<b>" (String.append nome_estacao "</b>"))
                     (cor_marcador i n) (icone i n) :: ms)
          end
      end
  end.

(** The loop of lines 183-194: step [i] joins stations [i] and [i+1] and
    reads line [i]. *)
Fixpoint polilinhas (stns : gmap string (Q * Q))
    (caminho linhas : list string) : erro_mapa + list desenho :=
  match caminho with
  | a :: ((b :: _) as resto) =>
      match stns !! a with
      | None => inl MapaKeyError
      | Some ponto_a =>
          match stns !! b with
          | None => inl MapaKeyError
          | Some ponto_b =>
              match linhas with
              | [] => inl MapaIndexError
              | l :: linhas' =>
                  match polilinhas stns resto linhas' with
                  | inl e => inl e
                  | inr ps =>
                      inr (Polilinha ponto_a ponto_b
                             (dict_get cores_linhas l "purple")
                             (String.append "Linha: " l) :: ps)
                  end
              end
          end
      end
  | _ => inr []
  end.

(** The rendering of a selected route as the list of calls it makes. The
    progress message and the opening of the browser are left out. *)
Definition _visualizar_caminho (stns : gmap string (Q * Q))
    (resultado : Caminho) : erro_mapa + list desenho :=
  match caminho resultado with
  | [] => inl MapaIndexError
  | primeira :: _ =>
      match stns !! primeira with
      | None => inl MapaKeyError
      | Some inicial =>
          match marcadores stns (length (caminho resultado)) 0
                  (caminho resultado) with
          | inl e => inl e
          | inr ms =>
              match polilinhas stns (caminho resultado) (linhas resultado) with
              | inl e => inl e
              | inr ps =>
                  inr (Mapa inicial 14 :: ms ++ ps
                       ++ [Salvar "trajeto_metro_londes.html"])
              end
          end
      end
  end.

(** The graph holds, under every declared station, the adjacency list of
    the edges added so far. *)
Definition grafo_de_arestas (stations : gmap string (Q * Q))
    (g : gmap string (list conexao)) (es : list (string * string * string))
    : Prop :=
  ∀ a, g !! a = (λ _, adjacencia es a) <$> stations !! a.

(** ** Further samples *)

Module Amostra.

(** A new instance on the line A - B - C. *)
Definition linha : Roteador :=
  MkRoteador Exemplo.estacoes_linha
    (Exemplo.grafo_de Exemplo.estacoes_linha Exemplo.arestas_linha) ∅.

(** A new instance on the five-station network. *)
Definition losango : Roteador :=
  MkRoteador Exemplo.estacoes_losango
    (Exemplo.grafo_de Exemplo.estacoes_losango Exemplo.arestas_losango) ∅.

(** The line A - B - C as a text, and a text whose second line names an
    undeclared station. *)
Definition texto_linha : string :=
  String.append "A - B - L" (String.append Str.newline "B - C - L").

Definition texto_ruim : string :=
  String.append "A - B - L" (String.append Str.newline "B - Z - L").

(** Three queries, the last one with a mode that does not exist. *)
Definition tres_consultas : list (string * string * string * string) :=
  [("A", "C", "10:00", "menor"); ("A", "B", "12:00", "medio");
   ("C", "A", "18:30", "outro")].

(** A route over A, B, C on line L. *)
Definition rota_abc : Caminho := MkCaminho ["A"; "B"; "C"] 7 ["L"; "L"] 0.

End Amostra.

(** * Properties *)

(** ** Cost model: the wait bracket *)

Lemma dt_hour_of_HM (h m : Z) :
  0 <= h < 24 → 0 <= m < 60 → dt_hour (inject_Z (60 * h + m)) = h.
Proof.
  intros Hh Hm. unfold dt_hour. rewrite Qfloor_Z.
  replace (60 * h + m) with (m + h * 60) by lia.
  rewrite Z.div_add by lia. rewrite Z.div_small by lia.
  rewrite Z.mod_small; lia.
Qed.

(** C9. The wait time is a function of the hour component alone: 1.5 before
    hour 11, 2.0 from hour 18 on, 1.0 in between; 11:00 and 17:59 are in the
    middle bracket (also one millisecond before 18:00), 18:00 is in the
    late one. *)
Theorem tempo_espera_brackets (t : Q) :
  (dt_hour t < 11 → _get_tempo_espera t = 3 # 2) ∧
  (18 <= dt_hour t → _get_tempo_espera t = 2%Q) ∧
  (11 <= dt_hour t < 18 → _get_tempo_espera t = 1%Q) ∧
  (∀ t', dt_hour t' = dt_hour t → _get_tempo_espera t' = _get_tempo_espera t) ∧
  (Strptime.strptime_HM "10:59" = Ok t → _get_tempo_espera t = 3 # 2) ∧
  (Strptime.strptime_HM "11:00" = Ok t → _get_tempo_espera t = 1%Q) ∧
  (Strptime.strptime_HM "17:59" = Ok t → _get_tempo_espera t = 1%Q) ∧
  (Strptime.strptime_HM "18:00" = Ok t → _get_tempo_espera t = 2%Q) ∧
  _get_tempo_espera (inject_Z (60 * 17 + 59) + (59999 # 60000)) = 1%Q.
Proof.
  unfold _get_tempo_espera.
  repeat split.
  - intros H. apply Z.ltb_lt in H. now rewrite H.
  - intros H. destruct (dt_hour t <? 11) eqn:E1; [apply Z.ltb_lt in E1; lia|].
    destruct (dt_hour t >=? 18) eqn:E2; [done|].
    rewrite Z.geb_leb in E2. apply Z.leb_gt in E2. lia.
  - intros [H1 H2]. destruct (dt_hour t <? 11) eqn:E1; [apply Z.ltb_lt in E1; lia|].
    destruct (dt_hour t >=? 18) eqn:E2; [|done].
    rewrite Z.geb_leb in E2. apply Z.leb_le in E2. lia.
  - intros t' ->. reflexivity.
  - intros H. vm_compute in H. injection H as <-. reflexivity.
  - intros H. vm_compute in H. injection H as <-. reflexivity.
  - intros H. vm_compute in H. injection H as <-. reflexivity.
  - intros H. vm_compute in H. injection H as <-. reflexivity.
Qed.

Lemma tempo_espera_brackets_witness :
  _get_tempo_espera (inject_Z (60 * 18 + 0)) = 2%Q ∧
  _get_tempo_espera (inject_Z (60 * 11 + 0)) = 1%Q ∧
  _get_tempo_espera (inject_Z (60 * 10 + 59)) = 3 # 2.
Proof.
  split; [|split].
  - apply (proj1 (proj2 (tempo_espera_brackets (inject_Z (60 * 18 + 0))))).
    vm_compute. discriminate.
  - apply (proj1 (proj2 (proj2 (tempo_espera_brackets (inject_Z (60 * 11 + 0)))))).
    vm_compute. split; [discriminate | reflexivity].
  - apply (proj1 (tempo_espera_brackets (inject_Z (60 * 10 + 59)))).
    vm_compute. reflexivity.
Defined.

(** ** The unguarded time parse *)

(** C10. Once both stations pass the existence check, a start-time string
    that [strptime] rejects makes the entry point raise [ValueError]; no
    reported outcome is produced. When the station check fails, it is that
    failure which is reported, whatever the time string. *)
Theorem encontrar_caminho_hora_invalida
    (gc : Q * Q → Q * Q → Q) (r : Roteador)
    (origem destino hora_inicio_str modo : string) :
  Strptime.strptime_HM hora_inicio_str = Raise ValueError →
  (origem ∈ dom (stations r) → destino ∈ dom (stations r) →
   encontrar_caminho gc r origem destino hora_inicio_str modo
     = Some (Raise ValueError)) ∧
  (origem ∉ dom (stations r) ∨ destino ∉ dom (stations r) →
   encontrar_caminho gc r origem destino hora_inicio_str modo
     = Some (Ok (ErroEstacao, r))).
Proof.
  intros Hparse. unfold encontrar_caminho. split.
  - intros Ho Hd. rewrite bool_decide_eq_false_2 by tauto.
    rewrite Hparse. reflexivity.
  - intros H. rewrite bool_decide_eq_true_2 by exact H. reflexivity.
Qed.

Lemma strptime_HM_raises_only_ValueError (s : string) (e : exception) :
  Strptime.strptime_HM s = Raise e → e = ValueError.
Proof.
  unfold Strptime.strptime_HM.
  destruct (Strptime.matches s) as [|[[h m] [|a r]] l]; congruence.
Qed.

Lemma encontrar_caminho_hora_invalida_witness :
  encontrar_caminho Exemplo.taxi
    (MkRoteador Exemplo.estacoes_linha ∅ ∅) "A" "C" "25:00" "menor"
  = Some (Raise ValueError).
Proof.
  apply (proj1 (encontrar_caminho_hora_invalida Exemplo.taxi
                  (MkRoteador Exemplo.estacoes_linha ∅ ∅)
                  "A" "C" "25:00" "menor" eq_refl)).
  - refine (bool_decide_unpack _ _). vm_compute. exact I.
  - refine (bool_decide_unpack _ _). vm_compute. exact I.
Defined.

(** ** Route selection: the median mode *)

Section Selecao.

Lemma Qltb_true (x y : Q) : Qltb x y = true → (x < y)%Q.
Proof.
  unfold Qltb. intros H. apply negb_true_iff in H.
  apply Qnot_le_lt. intros Hle. apply Qle_bool_iff in Hle. congruence.
Qed.

Lemma Qltb_false (x y : Q) : Qltb x y = false → (y <= x)%Q.
Proof.
  unfold Qltb. intros H. apply negb_false_iff in H.
  now apply Qle_bool_iff.
Qed.

Lemma inserir_perm (x : Caminho) (l : list Caminho) : inserir x l ≡ₚ x :: l.
Proof.
  induction l as [|y l IH]; simpl; [done|].
  destruct (Qltb (tempo y) (tempo x)); [|done].
  rewrite IH. apply perm_swap.
Qed.

Lemma sorted_perm (l : list Caminho) : sorted l ≡ₚ l.
Proof.
  induction l as [|x l IH]; simpl; [done|].
  rewrite inserir_perm. now rewrite IH.
Qed.

Lemma sorted_length (l : list Caminho) : length (sorted l) = length l.
Proof. apply Permutation_length, sorted_perm. Qed.

Lemma inserir_sorted (x : Caminho) (l : list Caminho) :
  StronglySorted por_tempo l → StronglySorted por_tempo (inserir x l).
Proof.
  induction 1 as [|y l Hs IH Hy]; simpl.
  - repeat constructor.
  - destruct (Qltb (tempo y) (tempo x)) eqn:E.
    + constructor; [exact IH|].
      apply Forall_forall. intros z Hz.
      rewrite inserir_perm in Hz.
      apply elem_of_cons in Hz as [->|Hz].
      * apply Qlt_le_weak, Qltb_true, E.
      * rewrite Forall_forall in Hy. now apply Hy.
    + apply Qltb_false in E.
      constructor; [now constructor|].
      constructor; [exact E|].
      eapply Forall_impl; [exact Hy|].
      intros z Hz. unfold por_tempo in *. eapply Qle_trans; eassumption.
Qed.

Lemma sorted_sorted (l : list Caminho) : StronglySorted por_tempo (sorted l).
Proof.
  induction l as [|x l IH]; simpl; [constructor|].
  now apply inserir_sorted.
Qed.

End Selecao.

(** C5. On a non-empty collection the median mode returns the item at index
    [(n-1)//2] of the collection sorted ascending by total time: the sorted
    list is an ascending rearrangement of the input, the result is one of the
    enumerated paths, the index is the exact middle for odd [n] and the left
    of the two middle positions for even [n]. *)
Theorem medio_lower_median (todos_caminhos : list Caminho) :
  todos_caminhos ≠ [] →
  let n := length todos_caminhos in
  ∃ r, selecionar "medio" todos_caminhos = Rota r
     ∧ sorted todos_caminhos !! ((n - 1) / 2)%nat = Some r
     ∧ sorted todos_caminhos ≡ₚ todos_caminhos
     ∧ StronglySorted por_tempo (sorted todos_caminhos)
     ∧ r ∈ todos_caminhos
     ∧ (∀ k, n = (2 * k + 1)%nat → ((n - 1) / 2)%nat = k)
     ∧ (∀ k, n = (2 * k + 2)%nat → ((n - 1) / 2)%nat = k).
Proof.
  intros Hne n.
  assert (Hlen : (0 < n)%nat).
  { subst n. destruct todos_caminhos; [done | simpl; lia]. }
  assert (Hidx : ((n - 1) / 2 < length (sorted todos_caminhos))%nat).
  { rewrite sorted_length. fold n.
    apply Nat.Div0.div_lt_upper_bound. lia. }
  destruct (lookup_lt_is_Some_2 _ _ Hidx) as [r Hr].
  exists r. repeat split.
  - unfold selecionar. subst n. destruct todos_caminhos as [|p ps]; [done|].
    rewrite !bool_decide_eq_false_2 by discriminate.
    rewrite bool_decide_eq_true_2 by reflexivity.
    cbv zeta. rewrite sorted_length. now rewrite Hr.
  - exact Hr.
  - apply sorted_perm.
  - apply sorted_sorted.
  - rewrite <- (sorted_perm todos_caminhos). eapply list_elem_of_lookup_2, Hr.
  - intros k ->. replace (2 * k + 1 - 1)%nat with (k * 2)%nat by lia.
    now rewrite Nat.div_mul.
  - intros k ->. replace (2 * k + 2 - 1)%nat with (1 + k * 2)%nat by lia.
    rewrite Nat.div_add by lia. reflexivity.
Qed.

Lemma medio_lower_median_witness :
  ∃ r, selecionar "medio" Exemplo.quatro_caminhos = Rota r
       ∧ sorted Exemplo.quatro_caminhos !! 1%nat = Some r
       ∧ caminho r = ["A"; "E"; "B"].
Proof.
  destruct (medio_lower_median Exemplo.quatro_caminhos) as (r & H1 & H2 & _).
  - discriminate.
  - exists r. split; [exact H1|]. split; [exact H2|].
    vm_compute in H2. injection H2 as <-. reflexivity.
Defined.


(** The answer of the entry point is the selection made on the
    enumerator's candidates. *)
Lemma encontrar_caminho_selecionar (gc : Q * Q → Q * Q → Q) (r r' : Roteador)
    (origem destino hora_inicio_str modo : string) (resp : Resposta) :
  origem ∈ dom (stations r) → destino ∈ dom (stations r) →
  encontrar_caminho gc r origem destino hora_inicio_str modo
    = Some (Ok (resp, r')) →
  ∃ hora_inicio todos_caminhos,
    Strptime.strptime_HM hora_inicio_str = Ok hora_inicio ∧
    _encontrar_caminhos_recursivo gc (stations r) (graph r) destino (budget r)
      origem ∅ hora_inicio None (memo r) = Some (Ok (todos_caminhos, memo r')) ∧
    resp = selecionar modo todos_caminhos.
Proof.
  intros Ho Hd. unfold encontrar_caminho.
  rewrite bool_decide_eq_false_2 by tauto.
  destruct (Strptime.strptime_HM hora_inicio_str) as [t|e]; simpl; [|done].
  destruct (_encontrar_caminhos_recursivo _ _ _ _ _ _ _ _ _ _)
    as [[[cs cache']|e]|] eqn:E; simpl; [|done..].
  intros [= <- <-]. exists t, cs. simpl. auto.
Qed.

(** ** The graph builder *)

Section Builder.

Implicit Types g : gmap string (list conexao).

Lemma dom_add_edge o d l g : dom (add_edge o d l g) = dom g.
Proof. unfold add_edge, append_adj. now rewrite !dom_alter_L. Qed.

Lemma lookup_add_edge o d l g a :
  add_edge o d l g !! a = (λ adj, (adj ++ ganho o d l a)%list) <$> g !! a.
Proof.
  unfold add_edge, append_adj, ganho. rewrite !lookup_alter.
  destruct (decide (o = a)) as [->|Ho], (decide (d = a)) as [->|Hd];
    repeat (rewrite ?decide_True, ?decide_False by done);
    destruct (g !! a) as [adj|] eqn:E; rewrite ?E; simpl;
    rewrite ?app_nil_r, <- ?app_assoc; try done.
  all: try (destruct (g !! o); done).
  all: try (destruct (g !! d); done).
Qed.

Lemma simetrico_add_edge o d l g :
  o ∈ dom g → d ∈ dom g → simetrico g → simetrico (add_edge o d l g).
Proof.
  intros Ho Hd Hs a b l' adj2 Ha Hin.
  rewrite lookup_add_edge in Ha.
  destruct (g !! a) as [adj|] eqn:Ea; [|done].
  injection Ha as <-.
  apply elem_of_app in Hin as [Hin|Hin].
  - destruct (Hs a b l' adj Ea Hin) as (adj' & Eb & Hin').
    exists (adj' ++ ganho o d l b)%list. rewrite lookup_add_edge, Eb.
    split; [done|]. apply elem_of_app. now left.
  - unfold ganho in Hin. apply elem_of_app in Hin as [Hin|Hin].
    + destruct (decide (o = a)) as [<-|]; [|by apply elem_of_nil in Hin].
      apply list_elem_of_singleton in Hin. injection Hin as -> ->.
      apply elem_of_dom in Hd as [adjd Ed].
      exists (adjd ++ ganho o d l d)%list. rewrite lookup_add_edge, Ed.
      split; [done|]. apply elem_of_app. right. unfold ganho.
      rewrite (decide_True (P := d = d)) by done.
      apply elem_of_app. right. apply list_elem_of_singleton. done.
    + destruct (decide (d = a)) as [<-|]; [|by apply elem_of_nil in Hin].
      apply list_elem_of_singleton in Hin. injection Hin as -> ->.
      apply elem_of_dom in Ho as [adjo Eo].
      exists (adjo ++ ganho o d l o)%list. rewrite lookup_add_edge, Eo.
      split; [done|]. apply elem_of_app. right. unfold ganho.
      rewrite (decide_True (P := o = o)) by done.
      apply elem_of_app. left. apply list_elem_of_singleton. done.
Qed.

Lemma simetrico_vazio (stations : gmap string (Q * Q)) :
  simetrico ((λ _, []) <$> stations).
Proof.
  intros a b l adj Ha Hin. rewrite lookup_fmap in Ha.
  destruct (stations !! a); [|done]. injection Ha as <-.
  by apply elem_of_nil in Hin.
Qed.

Lemma add_par_bem_formado stations nome g par :
  bem_formado stations g → bem_formado stations (add_par nome g par).
Proof.
  intros [Hdom Hs]. unfold add_par.
  destruct par as [|p0 [|p1 ?]]; [done..|].
  case_bool_decide as Hk; [done|]. split.
  - now rewrite dom_add_edge.
  - apply simetrico_add_edge; [| |done];
      destruct (decide (Str.strip p0 ∈ dom g));
      destruct (decide (Str.strip p1 ∈ dom g)); tauto.
Qed.

Lemma add_item_bem_formado stations g item :
  bem_formado stations g → bem_formado stations (add_item g item).
Proof.
  unfold add_item. generalize (item.2). intros pares. revert g.
  induction pares as [|par pares IH]; intros g Hg; simpl; [done|].
  apply IH. now apply add_par_bem_formado.
Qed.

Lemma add_items_bem_formado stations g items :
  bem_formado stations g → bem_formado stations (fold_left add_item items g).
Proof.
  revert g. induction items as [|item items IH]; intros g Hg; simpl; [done|].
  apply IH. now apply add_item_bem_formado.
Qed.

Lemma add_line_Ok g line g' :
  add_line g line = Ok g' →
  ∃ o d l, Str.strip <$> Str.split " - " line = [o; d; l]
           ∧ o ∈ dom g ∧ d ∈ dom g ∧ g' = add_edge o d l g.
Proof.
  unfold add_line.
  destruct (Str.strip <$> Str.split " - " line)
    as [|o [|d [|l [|? ?]]]]; try done.
  destruct (g !! o) as [adjo|] eqn:Eo; [|done].
  destruct (append_adj o (Conexao d l) g !! d) as [adjd|] eqn:Ed; [|done].
  intros [= <-]. exists o, d, l. repeat split.
  - apply elem_of_dom. eauto.
  - assert (Hd : d ∈ dom (append_adj o (Conexao d l) g))
      by (apply elem_of_dom; eauto).
    unfold append_adj in Hd. now rewrite dom_alter_L in Hd.
Qed.

Lemma add_line_bem_formado stations g line g' :
  bem_formado stations g → add_line g line = Ok g' → bem_formado stations g'.
Proof.
  intros [Hdom Hs] H. apply add_line_Ok in H as (o & d & l & _ & Ho & Hd & ->).
  split; [now rewrite dom_add_edge | now apply simetrico_add_edge].
Qed.

Lemma add_lines_bem_formado stations g lines g' :
  bem_formado stations g → add_lines g lines = Ok g' → bem_formado stations g'.
Proof.
  revert g. induction lines as [|line lines IH]; intros g Hg; simpl.
  - now intros [= <-].
  - destruct (add_line g line) as [g1|e] eqn:E; [|done].
    apply IH. eapply add_line_bem_formado; eassumption.
Qed.

Lemma build_graph_bem_formado stations data g :
  _build_graph stations data = Ok g → bem_formado stations g.
Proof.
  assert (H0 : bem_formado stations ((λ _, []) <$> stations)).
  { split; [apply dom_fmap_L | apply simetrico_vazio]. }
  unfold _build_graph. destruct data as [items|text].
  - intros [= <-]. now apply add_items_bem_formado.
  - now apply add_lines_bem_formado.
Qed.

End Builder.

(** C7. In every graph that the builder returns, from either input form,
    the keys are the declared stations, every adjacency entry names a key of
    the graph, and the entry is mirrored: if [b] is listed under [a] with
    line [l], then [a] is listed under [b] with line [l]. *)
Theorem build_graph_symmetric (stations : gmap string (Q * Q))
    (data : edges_data) (g : gmap string (list conexao)) :
  _build_graph stations data = Ok g →
  dom g = dom stations ∧
  ∀ a adj b l, g !! a = Some adj → Conexao b l ∈ adj →
    b ∈ dom g ∧ ∃ adj', g !! b = Some adj' ∧ Conexao a l ∈ adj'.
Proof.
  intros H. apply build_graph_bem_formado in H as [Hdom Hs].
  split; [exact Hdom|]. intros a adj b l Ha Hin.
  destruct (Hs a b l adj Ha Hin) as (adj' & Eb & Hin').
  split; [apply elem_of_dom; eauto | eauto].
Qed.

Lemma build_graph_symmetric_witness :
  let g := Exemplo.grafo_de Exemplo.estacoes_losango Exemplo.arestas_losango in
  dom g = dom Exemplo.estacoes_losango ∧
  ∀ a adj b l, g !! a = Some adj → Conexao b l ∈ adj →
    b ∈ dom g ∧ ∃ adj', g !! b = Some adj' ∧ Conexao a l ∈ adj'.
Proof.
  apply (build_graph_symmetric Exemplo.estacoes_losango Exemplo.arestas_losango).
  vm_compute. reflexivity.
Defined.


Section BuilderErrors.

Implicit Types g : gmap string (list conexao).

Lemma add_par_pendente stations nome g par :
  dom g = dom stations → par_pendente stations par → add_par nome g par = g.
Proof.
  intros Hdom Hp. unfold add_par, par_pendente in *.
  destruct par as [|p0 [|p1 ?]]; [done..|].
  rewrite Hdom. now rewrite bool_decide_eq_true_2.
Qed.

Lemma fold_add_par_bem_formado stations nome pares g :
  bem_formado stations g → bem_formado stations (fold_left (add_par nome) pares g).
Proof. intros Hg. apply (add_item_bem_formado stations g (nome, pares) Hg). Qed.

Lemma add_item_pendente stations nome g cs1 par cs2 :
  bem_formado stations g → par_pendente stations par →
  add_item g (nome, cs1 ++ par :: cs2) = add_item g (nome, cs1 ++ cs2).
Proof.
  intros Hg Hp. unfold add_item. simpl. rewrite !fold_left_app. simpl.
  rewrite (add_par_pendente stations); [done| |done].
  now apply fold_add_par_bem_formado.
Qed.

Lemma add_line_invalida stations g line :
  dom g = dom stations → linha_invalida stations line →
  ∃ e, add_line g line = Raise e.
Proof.
  intros Hdom. unfold linha_invalida, add_line.
  destruct (Str.strip <$> Str.split " - " line)
    as [|o [|d [|l [|? ?]]]]; try (intros _; eexists; reflexivity).
  intros Hk.
  destruct (g !! o) as [adjo|] eqn:Eo; [|eexists; reflexivity].
  destruct (append_adj o (Conexao d l) g !! d) as [adjd|] eqn:Ed;
    [|eexists; reflexivity].
  exfalso. rewrite <- Hdom in Hk. destruct Hk as [Hk|Hk]; apply Hk.
  - apply elem_of_dom. eauto.
  - assert (Hd : d ∈ dom (append_adj o (Conexao d l) g))
      by (apply elem_of_dom; eauto).
    unfold append_adj in Hd. now rewrite dom_alter_L in Hd.
Qed.

Lemma add_line_valida stations g line :
  dom g = dom stations → ¬ linha_invalida stations line →
  ∃ g', add_line g line = Ok g'.
Proof.
  intros Hdom. unfold linha_invalida, add_line.
  destruct (Str.strip <$> Str.split " - " line)
    as [|o [|d [|l [|? ?]]]]; try (intros []; exact I).
  intros Hk. rewrite <- Hdom in Hk.
  assert (Ho : o ∈ dom g) by (destruct (decide (o ∈ dom g)); tauto).
  assert (Hd : d ∈ dom g) by (destruct (decide (d ∈ dom g)); tauto).
  apply elem_of_dom in Ho as [adjo Eo]. rewrite Eo.
  assert (Hd' : d ∈ dom (append_adj o (Conexao d l) g))
    by (unfold append_adj; now rewrite dom_alter_L).
  apply elem_of_dom in Hd' as [adjd Ed]. rewrite Ed. eauto.
Qed.

Lemma add_lines_invalida stations g lines :
  bem_formado stations g → Exists (linha_invalida stations) lines →
  ∃ e, add_lines g lines = Raise e.
Proof.
  intros Hg Hex. revert g Hg.
  induction Hex as [line lines Hbad | line lines Hex IH]; intros g Hg; simpl.
  - destruct (add_line_invalida stations g line (proj1 Hg) Hbad) as [e ->].
    eauto.
  - destruct (add_line g line) as [g1|e] eqn:E; [|eauto].
    apply IH. eapply add_line_bem_formado; eassumption.
Qed.

Lemma add_lines_validas stations g lines :
  bem_formado stations g → Forall (λ l, ¬ linha_invalida stations l) lines →
  ∃ g', add_lines g lines = Ok g'.
Proof.
  intros Hg Hall. revert g Hg.
  induction Hall as [|line lines Hok Hall IH]; intros g Hg; simpl; [eauto|].
  destruct (add_line_valida stations g line (proj1 Hg) Hok) as [g1 E].
  rewrite E. apply IH. eapply add_line_bem_formado; eassumption.
Qed.

Lemma fold_add_item_app g items1 items2 :
  fold_left add_item (items1 ++ items2) g
  = fold_left add_item items2 (fold_left add_item items1 g).
Proof. apply fold_left_app. Qed.

End BuilderErrors.

(** C6. In the mapping form the builder never fails, and a pair naming an
    undeclared station contributes nothing: the graph is the one built
    without that pair. In the flat-line form a line that does not split
    into exactly three trimmed fields, or that names an undeclared station,
    makes the builder raise; when no line is of that kind, the builder
    succeeds. *)
Theorem build_graph_undeclared (stations : gmap string (Q * Q))
    (antes depois : list (string * list (list string)))
    (nome_linha : string) (cs1 cs2 : list (list string)) (par : list string)
    (text : string) :
  par_pendente stations par →
  (∃ g, _build_graph stations
          (EdgesDict (antes ++ (nome_linha, cs1 ++ par :: cs2) :: depois)) = Ok g
        ∧ _build_graph stations
          (EdgesDict (antes ++ (nome_linha, cs1 ++ cs2) :: depois)) = Ok g) ∧
  (Exists (linha_invalida stations) (text_lines text) →
   ∃ e, _build_graph stations (EdgesText text) = Raise e) ∧
  (Forall (λ l, ¬ linha_invalida stations l) (text_lines text) →
   ∃ g, _build_graph stations (EdgesText text) = Ok g).
Proof.
  intros Hp.
  assert (H0 : bem_formado stations ((λ _, []) <$> stations)).
  { split; [apply dom_fmap_L | apply simetrico_vazio]. }
  split; [|split].
  - eexists. split; [reflexivity|]. unfold _build_graph. f_equal.
    rewrite !fold_add_item_app. simpl. f_equal. symmetry.
    apply (add_item_pendente stations); [|done].
    now apply add_items_bem_formado.
  - intros Hex. now apply (add_lines_invalida stations).
  - intros Hall. now apply (add_lines_validas stations).
Qed.

Lemma build_graph_undeclared_witness :
  (∃ g, _build_graph Exemplo.estacoes_linha
          (EdgesDict [("L", [["A"; "B"]; ["B"; "Z"]; ["B"; "C"]])]) = Ok g
        ∧ _build_graph Exemplo.estacoes_linha
          (EdgesDict [("L", [["A"; "B"]; ["B"; "C"]])]) = Ok g) ∧
  (∃ e, _build_graph Exemplo.estacoes_linha (EdgesText "B - Z - L") = Raise e) ∧
  (∃ e, _build_graph Exemplo.estacoes_linha (EdgesText "A - B") = Raise e) ∧
  (∃ g, _build_graph Exemplo.estacoes_linha (EdgesText "A - B - L") = Ok g).
Proof.
  assert (Hp : par_pendente Exemplo.estacoes_linha ["B"; "Z"]).
  { right. intros H. apply elem_of_dom in H as [v Hv]. vm_compute in Hv.
    discriminate Hv. }
  split; [|split; [|split]].
  - apply (build_graph_undeclared Exemplo.estacoes_linha [] [] "L"
             [["A"; "B"]] [["B"; "C"]] ["B"; "Z"] "" Hp).
  - apply (build_graph_undeclared Exemplo.estacoes_linha [] [] "L"
             [["A"; "B"]] [["B"; "C"]] ["B"; "Z"] "B - Z - L" Hp).
    apply Exists_cons_hd. right. intros H. apply elem_of_dom in H as [v Hv].
    vm_compute in Hv. discriminate Hv.
  - apply (build_graph_undeclared Exemplo.estacoes_linha [] [] "L"
             [["A"; "B"]] [["B"; "C"]] ["B"; "Z"] "A - B" Hp).
    apply Exists_cons_hd. exact I.
  - apply (build_graph_undeclared Exemplo.estacoes_linha [] [] "L"
             [["A"; "B"]] [["B"; "C"]] ["B"; "Z"] "A - B - L" Hp).
    constructor; [|constructor].
    intros [H|H]; apply H; apply elem_of_dom; eexists; vm_compute; reflexivity.
Defined.


(** ** Termination of the enumerator *)

Section Termination.

Variable gc : Q * Q → Q * Q → Q.
Variable stns : gmap string (Q * Q).
Variable grafo : gmap string (list conexao).
Variable destino : string.

Implicit Types cache : gmap (string * gset string) (list Caminho).
Implicit Types V : gset string.



Lemma medida_decreases atual V n :
  atual ∈ dom grafo → n ∉ V →
  (medida grafo n (V ∪ {[atual]}) < medida grafo atual V)%nat.
Proof.
  intros Hdom Hn. unfold medida.
  destruct (decide (atual ∈ V)) as [Hin|Hout].
  - replace (V ∪ {[atual]}) with V by set_solver.
    rewrite (bool_decide_eq_false_2 (n ∈ V)) by done.
    rewrite (bool_decide_eq_true_2 (atual ∈ V)) by done. lia.
  - rewrite (bool_decide_eq_false_2 (atual ∈ V)) by done.
    assert (Hlt : (size (dom grafo ∖ (V ∪ {[atual]}))
                   < size (dom grafo ∖ V))%nat).
    { apply subset_size. set_solver. }
    case_bool_decide; lia.
Qed.


(** A call that returns within some budget returns the same with any
    larger one. *)
Lemma percorrer_mono rec1 rec2 atual V hora la conexoes acc cache res :
  (∀ n V' h l m res', rec1 n V' h l m = Some res' → rec2 n V' h l m = Some res') →
  percorrer gc stns rec1 atual V hora la conexoes acc cache = Some res →
  percorrer gc stns rec2 atual V hora la conexoes acc cache = Some res.
Proof.
  intros Hrec. revert acc cache.
  induction conexoes as [|c resto IH]; intros acc cache; simpl; [done|].
  case_bool_decide; [apply IH|].
  destruct (_get_tempo_deslocamento gc stns atual (vizinho c)) as [td|e];
    simpl; [|done].
  destruct (rec1 _ _ _ _ _) as [[[subs cache1]|e]|] eqn:E; simpl; [| |done].
  - rewrite (Hrec _ _ _ _ _ _ E). simpl. apply IH.
  - now rewrite (Hrec _ _ _ _ _ _ E).
Qed.

Lemma recursivo_S fuel atual V hora la cache :
  _encontrar_caminhos_recursivo gc stns grafo destino (S fuel)
    atual V hora la cache
  = if bool_decide (atual = destino)
    then Some (Ok ([MkCaminho [destino] 0 [] 0], cache))
    else match cache !! (atual, V) with
         | Some guardado => Some (Ok (guardado, cache))
         | None =>
             match grafo !! atual with
             | None => Some (Raise KeyError)
             | Some conexoes =>
                 LET (cs, cache') :=
                   percorrer gc stns
                     (_encontrar_caminhos_recursivo gc stns grafo destino fuel)
                     atual V hora la conexoes [] cache IN
                 Some (Ok (cs, <[(atual, V) := cs]> cache'))
             end
         end.
Proof. reflexivity. Qed.

Lemma recursivo_fuel_S fuel atual V hora la cache res :
  _encontrar_caminhos_recursivo gc stns grafo destino fuel
    atual V hora la cache = Some res →
  _encontrar_caminhos_recursivo gc stns grafo destino (S fuel)
    atual V hora la cache = Some res.
Proof.
  revert atual V hora la cache res.
  induction fuel as [|fuel IH]; intros atual V hora la cache res; [done|].
  rewrite (recursivo_S (S fuel)), (recursivo_S fuel).
  case_bool_decide; [done|].
  destruct (cache !! (atual, V)); [done|].
  destruct (grafo !! atual) as [conexoes|]; [|done].
  destruct (percorrer gc stns
              (_encontrar_caminhos_recursivo gc stns grafo destino fuel)
              atual V hora la conexoes [] cache) as [r1|] eqn:E; [|done].
  now rewrite (percorrer_mono _ _ _ _ _ _ _ _ _ _ IH E).
Qed.

Lemma recursivo_fuel_le fuel fuel' atual V hora la cache res :
  (fuel ≤ fuel')%nat →
  _encontrar_caminhos_recursivo gc stns grafo destino fuel
    atual V hora la cache = Some res →
  _encontrar_caminhos_recursivo gc stns grafo destino fuel'
    atual V hora la cache = Some res.
Proof.
  induction 1 as [|fuel' _ IH]; [done|].
  intros H. now apply recursivo_fuel_S, IH.
Qed.

End Termination.






(** ** The cache across queries *)

Section Cache.

Variable gc : Q * Q → Q * Q → Q.
Variable stns : gmap string (Q * Q).
Variable grafo : gmap string (list conexao).

Implicit Types cache : gmap (string * gset string) (list Caminho).
Implicit Types V : gset string.

(** A cached entry answers the call whatever the destination, the clock
    and the incoming line of the call are. *)
Lemma recursivo_cache_hit destino fuel atual V hora la cache guardado :
  atual ≠ destino → cache !! (atual, V) = Some guardado →
  _encontrar_caminhos_recursivo gc stns grafo destino (S fuel)
    atual V hora la cache = Some (Ok (guardado, cache)).
Proof.
  intros Hne Hhit. simpl. rewrite bool_decide_eq_false_2 by done.
  now rewrite Hhit.
Qed.

Lemma percorrer_memo_mono rec atual V hora la conexoes acc cache cs cache' :
  (∀ n V' h l m res m', rec n V' h l m = Some (Ok (res, m')) → m ⊆ m') →
  percorrer gc stns rec atual V hora la conexoes acc cache
    = Some (Ok (cs, cache')) →
  cache ⊆ cache'.
Proof.
  intros Hrec. revert acc cache.
  induction conexoes as [|c resto IH]; intros acc cache; simpl.
  - now intros [= _ <-].
  - case_bool_decide; [apply IH|].
    destruct (_get_tempo_deslocamento gc stns atual (vizinho c)) as [td|e];
      simpl; [|done].
    destruct (rec _ _ _ _ _) as [[[subs cache1]|e]|] eqn:E; simpl; [|done..].
    intros H1. apply Hrec in E. apply IH in H1. now transitivity cache1.
Qed.

Lemma recursivo_memo_mono destino fuel atual V hora la cache cs cache' :
  _encontrar_caminhos_recursivo gc stns grafo destino fuel
    atual V hora la cache = Some (Ok (cs, cache')) →
  cache ⊆ cache'.
Proof.
  revert atual V hora la cache cs cache'.
  induction fuel as [|fuel IH]; intros atual V hora la cache cs cache';
    simpl; [done|].
  case_bool_decide; [now intros [= _ <-]|].
  destruct (cache !! (atual, V)) eqn:Ec; [now intros [= _ <-]|].
  destruct (grafo !! atual) as [conexoes|]; [|done].
  destruct (percorrer _ _ _ _ _ _ _ _ _ _) as [[[cs1 cache1]|e]|] eqn:E;
    simpl; [|done..].
  intros [= _ <-]. apply insert_subseteq_r; [done|].
  eapply percorrer_memo_mono; [|exact E]. intros; eapply IH; eassumption.
Qed.

End Cache.

Lemma encontrar_caminho_keeps_memo (gc : Q * Q → Q * Q → Q) (r r' : Roteador)
    (origem destino hora_inicio_str modo : string) (resp : Resposta) :
  encontrar_caminho gc r origem destino hora_inicio_str modo
    = Some (Ok (resp, r')) →
  memo r ⊆ memo r' ∧ stations r' = stations r ∧ graph r' = graph r.
Proof.
  unfold encontrar_caminho. case_bool_decide; [now intros [= _ <-]|].
  destruct (Strptime.strptime_HM hora_inicio_str) as [t|e]; simpl; [|done].
  destruct (_encontrar_caminhos_recursivo _ _ _ _ _ _ _ _ _ _)
    as [[[cs cache']|e]|] eqn:E; simpl; [|done..].
  intros [= _ <-]. simpl. split; [|done].
  eapply recursivo_memo_mono, E.
Qed.

(** C2. The cache is part of the instance and survives every call of the
    entry point with all its entries; an entry stored under (station,
    visited set) answers a later call for any other destination. On the
    line A - B - C, a fresh instance asked for A to C and then for A to B
    answers the second query with the path A, B, C cached by the first: it
    does not end at B, and the path A, B that a fresh instance finds is not
    offered. *)
Theorem memo_shared_between_destinations (gc : Q * Q → Q * Q → Q) :
  (∀ r r' origem destino hora modo resp,
     encontrar_caminho gc r origem destino hora modo = Some (Ok (resp, r')) →
     memo r ⊆ memo r') ∧
  (∀ stns grafo destino fuel atual V hora la
     (cache : gmap (string * gset string) (list Caminho)) guardado,
     atual ≠ destino → cache !! (atual, V) = Some guardado →
     _encontrar_caminhos_recursivo gc stns grafo destino (S fuel)
       atual V hora la cache = Some (Ok (guardado, cache))) ∧
  Exemplo.rotas gc Exemplo.estacoes_linha Exemplo.arestas_linha
    [("A", "C", "10:00", "menor"); ("A", "B", "10:00", "menor")]
  = Some [Some (["A"; "B"; "C"], ["L"; "L"], 0);
          Some (["A"; "B"; "C"], ["L"; "L"], 0)] ∧
  last ["A"; "B"; "C"] ≠ Some "B" ∧
  Exemplo.chaves gc Exemplo.estacoes_linha Exemplo.arestas_linha
    [("A", "C", "10:00", "menor")]
  = Some [("A", []); ("B", ["A"])] ∧
  Exemplo.rotas gc Exemplo.estacoes_linha Exemplo.arestas_linha
    [("A", "B", "10:00", "menor")]
  = Some [Some (["A"; "B"], ["L"], 0)].
Proof.
  split; [|split; [|split; [|split; [|split]]]].
  - intros r r' origem destino hora modo resp H.
    now apply encontrar_caminho_keeps_memo in H.
  - intros. now apply recursivo_cache_hit.
  - vm_compute. reflexivity.
  - discriminate.
  - vm_compute. reflexivity.
  - vm_compute. reflexivity.
Qed.

Lemma memo_shared_between_destinations_witness :
  ∃ cache',
    _encontrar_caminhos_recursivo Exemplo.taxi Exemplo.estacoes_linha
      (Exemplo.grafo_de Exemplo.estacoes_linha Exemplo.arestas_linha)
      "B" 8 "A" ∅ (inject_Z 600) None
      {[ ("A", ∅) := [MkCaminho ["A"; "B"; "C"] 7 ["L"; "L"] 0] ]}
    = Some (Ok ([MkCaminho ["A"; "B"; "C"] 7 ["L"; "L"] 0], cache')).
Proof.
  eexists.
  apply (proj1 (proj2 (memo_shared_between_destinations Exemplo.taxi))).
  - discriminate.
  - apply lookup_singleton_eq.
Defined.


(** ** Candidate paths built from cached suffixes *)

(** C3. Reported transfer counts on a new instance, one query each. Where
    lines L1 and L2 share the track A - X, the journey A, X, D over L2 then
    L1 is returned with 0 transfers although its line sequence changes
    once: the suffix X, D was cached on arriving over L1. Without parallel
    edges, the journey A, C, B, X, D over L2, L1, L2, L1 is returned with 2
    transfers although its line sequence changes three times. *)
Theorem trocas_from_cached_suffix (gc : Q * Q → Q * Q → Q) :
  Exemplo.candidatos gc Exemplo.estacoes_paralela Exemplo.arestas_paralela
    "A" "D" (inject_Z 720)
  = Some [(["A"; "X"; "D"], ["L1"; "L1"], 0);
          (["A"; "X"; "D"], ["L2"; "L1"], 0)] ∧
  conta_trocas ["L2"; "L1"] = 1 ∧
  Exemplo.candidatos gc Exemplo.estacoes_losango Exemplo.arestas_losango
    "A" "D" (inject_Z 720)
  = Some [(["A"; "B"; "C"; "X"; "D"], ["L1"; "L1"; "L1"; "L1"], 0);
          (["A"; "B"; "X"; "D"], ["L1"; "L2"; "L1"], 2);
          (["A"; "C"; "B"; "X"; "D"], ["L2"; "L1"; "L2"; "L1"], 2);
          (["A"; "C"; "X"; "D"], ["L2"; "L1"; "L1"], 1)] ∧
  conta_trocas ["L2"; "L1"; "L2"; "L1"] = 3.
Proof.
  repeat split; vm_compute; reflexivity.
Qed.

(** C4. Station sequences returned by the enumerator. With an edge from A
    to itself, the query A to B on a new instance returns A, A, B, which
    repeats A. On the line A - B - C, the query B to A that follows the
    query B to C on the same instance is answered with B, C, which does not
    end at A. *)
Theorem caminho_not_simple (gc : Q * Q → Q * Q → Q) :
  Exemplo.candidatos gc Exemplo.estacoes_laco Exemplo.arestas_laco
    "A" "B" (inject_Z 600)
  = Some [(["A"; "A"; "B"], ["L"; "L"], 0);
          (["A"; "A"; "B"], ["L"; "L"], 0);
          (["A"; "B"], ["L"], 0)] ∧
  ¬ NoDup ["A"; "A"; "B"] ∧
  Exemplo.rotas gc Exemplo.estacoes_linha Exemplo.arestas_linha
    [("B", "C", "10:00", "menor"); ("B", "A", "10:00", "menor")]
  = Some [Some (["B"; "C"], ["L"], 0); Some (["B"; "C"], ["L"], 0)] ∧
  last ["B"; "C"] ≠ Some "A".
Proof.
  repeat split; try (vm_compute; reflexivity); try discriminate.
  intros H. apply NoDup_cons_1_1 in H. apply H. left.
Qed.

(** ** Symbolic execution of the enumerator *)

Section Passos.

Variable gc : Q * Q → Q * Q → Q.
Variable stns : gmap string (Q * Q).
Variable grafo : gmap string (list conexao).
Variable destino : string.

Implicit Types cache : gmap (string * gset string) (list Caminho).
Implicit Types V : gset string.

Lemma recursivo_base fuel V hora la cache :
  _encontrar_caminhos_recursivo gc stns grafo destino (S fuel)
    destino V hora la cache
  = Some (Ok ([MkCaminho [destino] 0 [] 0], cache)).
Proof. simpl. now rewrite bool_decide_eq_true_2. Qed.

Lemma recursivo_miss fuel atual V hora la cache conexoes :
  atual ≠ destino → cache !! (atual, V) = None →
  grafo !! atual = Some conexoes →
  _encontrar_caminhos_recursivo gc stns grafo destino (S fuel)
    atual V hora la cache
  = (LET (cs, cache') :=
       percorrer gc stns
         (_encontrar_caminhos_recursivo gc stns grafo destino fuel)
         atual V hora la conexoes [] cache IN
     Some (Ok (cs, <[(atual, V) := cs]> cache'))).
Proof.
  intros Hne Hc Hg. simpl. rewrite bool_decide_eq_false_2 by done.
  now rewrite Hc, Hg.
Qed.

Lemma percorrer_skip rec atual V hora la c resto acc cache :
  vizinho c ∈ V →
  percorrer gc stns rec atual V hora la (c :: resto) acc cache
  = percorrer gc stns rec atual V hora la resto acc cache.
Proof. intros Hin. simpl. now rewrite bool_decide_eq_true_2. Qed.

Lemma percorrer_visit rec atual V hora la c resto acc cache
    ca cn subs cache' :
  vizinho c ∉ V → stns !! atual = Some ca → stns !! vizinho c = Some cn →
  rec (vizinho c) (V ∪ {[atual]})
      (hora + (_get_tempo_espera hora
               + gc ca cn / VELOCIDADE_TREM_KMH * 60
               + (if troca_de_linha la (linha c)
                  then PENALIDADE_TROCA_LINHA_MIN else 0)))%Q
      (Some (linha c)) cache = Some (Ok (subs, cache')) →
  percorrer gc stns rec atual V hora la (c :: resto) acc cache
  = percorrer gc stns rec atual V hora la resto
      (acc ++ map (caminho_completo atual (linha c)
                     (troca_de_linha la (linha c))
                     (_get_tempo_espera hora
                      + gc ca cn / VELOCIDADE_TREM_KMH * 60
                      + (if troca_de_linha la (linha c)
                         then PENALIDADE_TROCA_LINHA_MIN else 0))%Q)
                  subs)
      cache'.
Proof.
  intros Hout Ha Hn Hrec. simpl. rewrite bool_decide_eq_false_2 by done.
  unfold _get_tempo_deslocamento, _haversine, _get_coords.
  rewrite Ha, Hn. simpl. now rewrite Hrec.
Qed.

End Passos.

(** C1. Total times, whatever the distances are. (1) Where lines L1 and
    L2 share the track A - X and X - D continues on L1, the query A to D at
    12:00 on a new instance returns two candidates over A, X, D. The one
    over L1, L1 carries the sum of its edge times. The one over L2, L1
    reuses the suffix cached for X on arriving over L1: its total is 3
    minutes short of the sum of its edge times, the penalty of the change
    at X. (2) On the line A - B - C, the query A to B asked at 10:00 and
    again at 12:00 on the same instance is answered both times with the
    total computed for 10:00, half a minute above the sum of edge times for
    a departure at 12:00. *)
Theorem tempo_from_cached_suffix (gc : Q * Q → Q * Q → Q) :
  (let stns := Exemplo.estacoes_paralela in
   let grafo := Exemplo.grafo_de stns Exemplo.arestas_paralela in
   let r := MkRoteador stns grafo ∅ in
   __init__ stns Exemplo.arestas_paralela = Ok r ∧
   ∃ p1 p2 cache',
     _encontrar_caminhos_recursivo gc stns grafo "D" (budget r) "A" ∅
       (inject_Z 720) None ∅ = Some (Ok ([p1; p2], cache')) ∧
     caminho p1 = ["A"; "X"; "D"] ∧ linhas p1 = ["L1"; "L1"] ∧
     (tempo p1 == tempo_esperado_de gc stns (inject_Z 720) p1)%Q ∧
     caminho p2 = ["A"; "X"; "D"] ∧ linhas p2 = ["L2"; "L1"] ∧
     (tempo p2 + 3 == tempo_esperado_de gc stns (inject_Z 720) p2)%Q ∧
     ¬ (tempo p2 == tempo_esperado_de gc stns (inject_Z 720) p2)%Q) ∧
  (let stns := Exemplo.estacoes_linha in
   let grafo := Exemplo.grafo_de stns Exemplo.arestas_linha in
   let r0 := MkRoteador stns grafo ∅ in
   __init__ stns Exemplo.arestas_linha = Ok r0 ∧
   ∃ p r1,
     encontrar_caminho gc r0 "A" "B" "10:00" "menor" = Some (Ok (Rota p, r1)) ∧
     encontrar_caminho gc r1 "A" "B" "12:00" "menor" = Some (Ok (Rota p, r1)) ∧
     caminho p = ["A"; "B"] ∧ linhas p = ["L"] ∧
     (tempo p == tempo_esperado_de gc stns (inject_Z 600) p)%Q ∧
     (tempo p == tempo_esperado_de gc stns (inject_Z 720) p + (1 # 2))%Q).
Proof.
  split.
  {
    intros stns grafo r. split; [vm_compute; reflexivity|].
    replace (budget r) with 8%nat by (vm_compute; reflexivity).
    assert (HA : stns !! "A" = Some (inject_Z 0, 0%Q)) by (vm_compute; reflexivity).
    assert (HX : stns !! "X" = Some (inject_Z 1, 0%Q)) by (vm_compute; reflexivity).
    assert (HD : stns !! "D" = Some (inject_Z 2, 0%Q)) by (vm_compute; reflexivity).
    assert (GA : grafo !! "A" = Some [Conexao "X" "L1"; Conexao "X" "L2"])
      by (vm_compute; reflexivity).
    assert (GX : grafo !! "X"
                 = Some [Conexao "A" "L1"; Conexao "D" "L1"; Conexao "A" "L2"])
      by (vm_compute; reflexivity).
    clearbody stns grafo. clear r.
    assert (NeA : "A" ≠ "D") by discriminate.
    assert (NeX : "X" ≠ "D") by discriminate.
    assert (InA : "A" ∈ (∅ ∪ {["A"]} : gset string)) by set_solver.
    assert (OutD : "D" ∉ (∅ ∪ {["A"]} : gset string)) by set_solver.
    assert (OutX : "X" ∉ (∅ : gset string)) by set_solver.
    (* the call at X, first reached over L1: computed and cached *)
    assert (EX : ∀ h, ∃ sX,
      _encontrar_caminhos_recursivo gc stns grafo "D" 7 "X" (∅ ∪ {["A"]}) h
        (Some "L1") ∅
      = Some (Ok ([sX], <[("X", ∅ ∪ {["A"]}) := [sX]]> ∅))
      ∧ caminho sX = ["X"; "D"] ∧ linhas sX = ["L1"]
      ∧ tempo sX = (_get_tempo_espera h
                    + gc (inject_Z 1, 0%Q) (inject_Z 2, 0%Q)
                      / VELOCIDADE_TREM_KMH * 60 + 0 + 0)%Q).
    { intros h. eexists. split.
      - rewrite (recursivo_miss gc stns grafo "D" 6 "X" _ h _ ∅ _ NeX
                   (lookup_empty _) GX).
        rewrite (percorrer_skip gc stns _ "X" _ h _ (Conexao "A" "L1")) by exact InA.
        rewrite (percorrer_visit gc stns _ "X" _ h _ (Conexao "D" "L1") _ _ _
                   _ _ _ _ OutD HX HD (recursivo_base gc stns grafo "D" 5 _ _ _ _)).
        rewrite (percorrer_skip gc stns _ "X" _ h _ (Conexao "A" "L2")) by exact InA.
        cbn [percorrer fbind app map]. reflexivity.
      - cbn. repeat split; reflexivity. }
    set (t0 := inject_Z 720).
    set (tt0 := (_get_tempo_espera t0
                 + gc (inject_Z 0, 0%Q) (inject_Z 1, 0%Q)
                   / VELOCIDADE_TREM_KMH * 60 + 0)%Q).
    destruct (EX (t0 + tt0)%Q) as (sX & EsX & HcX & HlX & HtX).
    exists (caminho_completo "A" "L1" false tt0 sX),
           (caminho_completo "A" "L2" false tt0 sX).
    eexists. split.
    { rewrite (recursivo_miss gc stns grafo "D" 7 "A" _ t0 _ ∅ _ NeA
                 (lookup_empty _) GA).
      rewrite (percorrer_visit gc stns _ "A" _ t0 None (Conexao "X" "L1") _ _ _
                 _ _ _ _ OutX HA HX EsX).
      rewrite (percorrer_visit gc stns _ "A" _ t0 None (Conexao "X" "L2") _ _ _
                 _ _ [sX] (<[("X", ∅ ∪ {["A"]}) := [sX]]> ∅) OutX HA HX).
      - cbn [percorrer fbind app map linha troca_de_linha]. reflexivity.
      - apply recursivo_cache_hit; [exact NeX | apply lookup_insert_eq]. }
    assert (E1 : (tempo (caminho_completo "A" "L1" false tt0 sX)
                  == tempo_esperado_de gc stns t0
                       (caminho_completo "A" "L1" false tt0 sX))%Q).
    { unfold tempo_esperado_de. cbn [caminho linhas tempo caminho_completo].
      rewrite HcX, HlX, HtX. cbn [tempo_esperado]. rewrite HA, HX, HD.
      unfold edge_time. rewrite bool_decide_eq_true_2 by reflexivity.
      fold t0. unfold tt0. ring. }
    assert (E2 : (tempo (caminho_completo "A" "L2" false tt0 sX) + 3
                  == tempo_esperado_de gc stns t0
                       (caminho_completo "A" "L2" false tt0 sX))%Q).
    { unfold tempo_esperado_de. cbn [caminho linhas tempo caminho_completo].
      rewrite HcX, HlX, HtX. cbn [tempo_esperado]. rewrite HA, HX, HD.
      unfold edge_time. rewrite bool_decide_eq_false_2 by discriminate.
      fold t0. unfold tt0, PENALIDADE_TROCA_LINHA_MIN. ring. }
    cbn [caminho linhas caminho_completo]. rewrite HcX, HlX.
    repeat split; try assumption.
    intros H. rewrite <- H in E2.
    apply (Qplus_inj_l _ _ (- tempo (caminho_completo "A" "L2" false tt0 sX))) in E2.
    ring_simplify in E2. discriminate E2.
  }
  {
    intros stns grafo r0. split; [vm_compute; reflexivity|].
    assert (HA : stns !! "A" = Some (inject_Z 0, 0%Q)) by (vm_compute; reflexivity).
    assert (HB : stns !! "B" = Some (inject_Z 1, 0%Q)) by (vm_compute; reflexivity).
    assert (GA : grafo !! "A" = Some [Conexao "B" "L"]) by (vm_compute; reflexivity).
    assert (DA : "A" ∈ dom stns) by (apply elem_of_dom; eauto).
    assert (DB : "B" ∈ dom stns) by (apply elem_of_dom; eauto).
    assert (Hb : budget r0 = 8%nat) by (vm_compute; reflexivity).
    assert (P10 : Strptime.strptime_HM "10:00" = Ok (inject_Z 600))
      by (vm_compute; reflexivity).
    assert (P12 : Strptime.strptime_HM "12:00" = Ok (inject_Z 720))
      by (vm_compute; reflexivity).
    assert (W10 : _get_tempo_espera (inject_Z 600) = 3 # 2) by reflexivity.
    assert (W12 : _get_tempo_espera (inject_Z 720) = 1%Q) by reflexivity.
    assert (NeA : "A" ≠ "B") by discriminate.
    assert (OutB : "B" ∉ (∅ : gset string)) by set_solver.
    subst r0. clearbody stns grafo.
    set (tt := (_get_tempo_espera (inject_Z 600)
                + gc (inject_Z 0, 0%Q) (inject_Z 1, 0%Q)
                  / VELOCIDADE_TREM_KMH * 60 + 0)%Q).
    set (p := caminho_completo "A" "L" false tt (MkCaminho ["B"] 0 [] 0)).
    set (cache1 := <[("A", ∅ : gset string) := [p]]>
                     (∅ : gmap (string * gset string) (list Caminho))).
    exists p, (MkRoteador stns grafo cache1). split; [|split].
    - unfold encontrar_caminho. cbn [stations graph memo].
      rewrite bool_decide_eq_false_2 by tauto. rewrite P10. cbn [lift fbind].
      unfold budget in *. cbn [graph] in *. rewrite Hb.
      rewrite (recursivo_miss gc stns grafo "B" 7 "A" _ _ _ ∅ _ NeA
                 (lookup_empty _) GA).
      rewrite (percorrer_visit gc stns _ "A" _ _ None (Conexao "B" "L") _ _ _
                 _ _ _ _ OutB HA HB (recursivo_base gc stns grafo "B" 6 _ _ _ _)).
      cbn [percorrer fbind app map linha troca_de_linha]. reflexivity.
    - unfold encontrar_caminho. cbn [stations graph memo].
      rewrite bool_decide_eq_false_2 by tauto. rewrite P12. cbn [lift fbind].
      unfold budget in *. cbn [graph] in *. rewrite Hb.
      rewrite (recursivo_cache_hit gc stns grafo "B" 7 "A" ∅ _ None cache1 [p]
                 NeA (lookup_insert_eq _ _ _)).
      reflexivity.
    - unfold tempo_esperado_de. subst p. cbn [caminho linhas tempo caminho_completo tempo_esperado].
      rewrite HA, HB. unfold edge_time. subst tt. rewrite W10, W12.
      repeat split; ring.
  }
Qed.


(** ** Simple paths on a cache filled for one destination *)

Section Simples.

Variable gc : Q * Q → Q * Q → Q.
Variable stns : gmap string (Q * Q).
Variable grafo : gmap string (list conexao).
Variable destino : string.

Implicit Types cache : gmap (string * gset string) (list Caminho).
Implicit Types V : gset string.

Lemma sem_lacos_lookup a adj c :
  sem_lacos grafo → grafo !! a = Some adj → c ∈ adj → vizinho c ≠ a.
Proof.
  intros Hsl Ha Hc. specialize (Hsl a adj Ha). simpl in Hsl.
  rewrite Forall_forall in Hsl. now apply Hsl.
Qed.

Lemma bom_caminho_base V :
  bom_caminho destino destino V (MkCaminho [destino] 0 [] 0).
Proof.
  exists []. simpl. repeat split; try done.
  - apply NoDup_singleton.
  - intros x Hx. by apply elem_of_nil in Hx.
Qed.

Lemma bom_caminho_completo atual V n l troca tt p :
  n ∉ V → n ≠ atual → bom_caminho destino n (V ∪ {[atual]}) p →
  bom_caminho destino atual V (caminho_completo atual l troca tt p).
Proof.
  intros HnV Hna (resto & Hc & Hnd & Hav & Hlast & Hlen).
  exists (n :: resto). simpl. rewrite Hc. repeat split.
  - apply NoDup_cons. split; [|exact Hnd].
    intros Hin. apply elem_of_cons in Hin as [->|Hin]; [done|].
    apply (Hav atual Hin). set_solver.
  - intros x Hx. apply elem_of_cons in Hx as [->|Hx]; [done|].
    intros HxV. apply (Hav x Hx). set_solver.
  - rewrite <- Hlast, Hc. reflexivity.
  - rewrite <- Hlen, Hc. reflexivity.
Qed.

Lemma percorrer_bom rec atual V hora la conexoes acc cache ps cache' :
  (∀ n V' h l m res m', cache_de destino m →
     rec n V' h l m = Some (Ok (res, m')) →
     Forall (bom_caminho destino n V') res ∧ cache_de destino m') →
  (∀ c, c ∈ conexoes → vizinho c ≠ atual) →
  Forall (bom_caminho destino atual V) acc → cache_de destino cache →
  percorrer gc stns rec atual V hora la conexoes acc cache
    = Some (Ok (ps, cache')) →
  Forall (bom_caminho destino atual V) ps ∧ cache_de destino cache'.
Proof.
  intros Hrec. revert acc cache.
  induction conexoes as [|c resto IH]; intros acc cache Hloop Hacc Hcache; simpl.
  - now intros [= <- <-].
  - assert (Hresto : ∀ c', c' ∈ resto → vizinho c' ≠ atual).
    { intros c' Hc'. apply Hloop. now apply list_elem_of_further. }
    case_bool_decide as Hv; [now apply IH|].
    destruct (_get_tempo_deslocamento gc stns atual (vizinho c)) as [td|e];
      simpl; [|done].
    destruct (rec _ _ _ _ _) as [[[subs cache1]|e]|] eqn:E; simpl; [|done..].
    destruct (Hrec _ _ _ _ _ _ _ Hcache E) as [Hsubs Hcache1].
    apply IH; [exact Hresto| |exact Hcache1].
    apply Forall_app. split; [exact Hacc|].
    apply Forall_fmap. eapply Forall_impl; [exact Hsubs|].
    intros p Hp. simpl. eapply bom_caminho_completo; [exact Hv| |exact Hp].
    apply Hloop, list_elem_of_here.
Qed.

Lemma recursivo_bom fuel atual V hora la cache ps cache' :
  sem_lacos grafo → cache_de destino cache →
  _encontrar_caminhos_recursivo gc stns grafo destino fuel
    atual V hora la cache = Some (Ok (ps, cache')) →
  Forall (bom_caminho destino atual V) ps ∧ cache_de destino cache'.
Proof.
  intros Hsl. revert atual V hora la cache ps cache'.
  induction fuel as [|fuel IH]; intros atual V hora la cache ps cache' Hcache;
    simpl; [done|].
  case_bool_decide as Hd.
  { intros [= <- <-]. subst atual. split; [|done].
    apply Forall_singleton, bom_caminho_base. }
  destruct (cache !! (atual, V)) as [guardado|] eqn:Ec.
  { intros [= <- <-]. split; [|done]. eapply Hcache, Ec. }
  destruct (grafo !! atual) as [conexoes|] eqn:Eg; [|done].
  destruct (percorrer _ _ _ _ _ _ _ _ _ _) as [[[cs cache1]|e]|] eqn:E;
    simpl; [|done..].
  intros [= <- <-].
  destruct (percorrer_bom _ _ _ _ _ _ _ _ _ _
              (λ n V' h l m res m' Hm, IH n V' h l m res m' Hm)
              (λ c Hc, sem_lacos_lookup atual conexoes c Hsl Eg Hc)
              (Forall_nil_2 _) Hcache E) as [Hcs Hcache1].
  split; [exact Hcs|].
  intros a W qs Hq. destruct (decide ((atual, V) = (a, W))) as [[= <- <-]|Hne].
  - rewrite lookup_insert_eq in Hq. now injection Hq as <-.
  - rewrite lookup_insert_ne in Hq by done. eapply Hcache1, Hq.
Qed.

End Simples.

Lemma cache_de_empty (destino : string) : cache_de destino ∅.
Proof. intros a V ps H. by rewrite lookup_empty in H. Qed.

(** X21. On a graph without self-edges, a new instance, or one that has only
    been asked for the same destination, returns simple paths only: each
    starts at the origin, ends at the destination, repeats no station and
    has one line per edge; and the cache it leaves is again one for that
    destination. *)
Theorem encontrar_caminho_simples (gc : Q * Q → Q * Q → Q) (r : Roteador)
    (origem destino hora : string) (t : Q) (todos : list Caminho)
    (cache' : gmap (string * gset string) (list Caminho)) :
  sem_lacos (graph r) → cache_de destino (memo r) →
  _encontrar_caminhos_recursivo gc (stations r) (graph r) destino (budget r)
    origem ∅ t None (memo r) = Some (Ok (todos, cache')) →
  cache_de destino cache' ∧
  ∀ p, p ∈ todos →
    head (caminho p) = Some origem ∧ last (caminho p) = Some destino ∧
    NoDup (caminho p) ∧ length (caminho p) = S (length (linhas p)).
Proof.
  intros Hsl Hcache E.
  destruct (recursivo_bom gc _ _ _ _ _ _ _ _ _ _ _ Hsl Hcache E) as [Hps Hc'].
  split; [exact Hc'|]. intros p Hp.
  rewrite Forall_forall in Hps.
  destruct (Hps p Hp) as (resto & Hc & Hnd & _ & Hlast & Hlen).
  rewrite Hc in *. repeat split; done.
Qed.


Lemma encontrar_caminho_simples_witness :
  ∃ todos cache',
    _encontrar_caminhos_recursivo Exemplo.taxi Exemplo.estacoes_losango
      (Exemplo.grafo_de Exemplo.estacoes_losango Exemplo.arestas_losango)
      "D" 12 "A" ∅ (inject_Z 600) None ∅ = Some (Ok (todos, cache')) ∧
    length todos = 4%nat ∧
    ∀ p, p ∈ todos →
      head (caminho p) = Some "A" ∧ last (caminho p) = Some "D" ∧
      NoDup (caminho p) ∧ length (caminho p) = S (length (linhas p)).
Proof.
  assert (Hn : match _encontrar_caminhos_recursivo Exemplo.taxi
                       Exemplo.estacoes_losango
                       (Exemplo.grafo_de Exemplo.estacoes_losango
                          Exemplo.arestas_losango)
                       "D" 12 "A" ∅ (inject_Z 600) None ∅ with
               | Some (Ok (todos, _)) => length todos
               | _ => 0%nat
               end = 4%nat) by (vm_compute; reflexivity).
  destruct (_encontrar_caminhos_recursivo _ _ _ _ _ _ _ _ _ _)
    as [[[todos cache']|e]|] eqn:E; try discriminate Hn.
  exists todos, cache'. split; [reflexivity|]. split; [exact Hn|].
  eapply (encontrar_caminho_simples Exemplo.taxi
            (MkRoteador Exemplo.estacoes_losango
               (Exemplo.grafo_de Exemplo.estacoes_losango
                  Exemplo.arestas_losango) ∅)
            "A" "D" "10:00" (inject_Z 600)).
  - refine (bool_decide_unpack _ _). vm_compute. exact I.
  - apply cache_de_empty.
  - replace (budget _) with 12%nat by (vm_compute; reflexivity). exact E.
Defined.

(** * The rest of the source *)

(** ** The graph builder, edge by edge *)

Section Adjacencia.

Variable stations : gmap string (Q * Q).

Implicit Types g : gmap string (list conexao).
Implicit Types es : list (string * string * string).

Lemma grafo_de_arestas_dom g es : grafo_de_arestas stations g es → dom g = dom stations.
Proof.
  intros H. apply set_eq. intros a. rewrite !elem_of_dom, (H a).
  destruct (stations !! a); simpl; split; intros [? ?]; eauto; done.
Qed.

Lemma grafo_de_arestas_vazio : grafo_de_arestas stations ((λ _, []) <$> stations) [].
Proof. intros a. now rewrite lookup_fmap. Qed.

Lemma adjacencia_snoc es o d l a :
  adjacencia (es ++ [(o, d, l)]) a = adjacencia es a ++ ganho o d l a.
Proof.
  unfold adjacencia. rewrite flat_map_app. simpl. now rewrite app_nil_r.
Qed.

Lemma grafo_de_arestas_add_edge g es o d l :
  grafo_de_arestas stations g es →
  grafo_de_arestas stations (add_edge o d l g) (es ++ [(o, d, l)]).
Proof.
  intros H a. rewrite lookup_add_edge, (H a), adjacencia_snoc.
  now destruct (stations !! a).
Qed.

Lemma grafo_de_arestas_add_par g es nome par :
  grafo_de_arestas stations g es →
  grafo_de_arestas stations (add_par nome g par) (es ++ aresta_do_par stations nome par).
Proof.
  intros H. pose proof (grafo_de_arestas_dom g es H) as Hdom.
  unfold add_par, aresta_do_par.
  destruct par as [|p0 [|p1 ?]]; rewrite ?app_nil_r; try done.
  rewrite Hdom.
  destruct (decide (Str.strip p0 ∈ dom stations)) as [I0|O0];
    [destruct (decide (Str.strip p1 ∈ dom stations)) as [I1|O1]|].
  - rewrite bool_decide_eq_false_2 by (intros [?|?]; done).
    rewrite bool_decide_eq_true_2 by done.
    now apply grafo_de_arestas_add_edge.
  - rewrite bool_decide_eq_true_2 by (by right).
    rewrite bool_decide_eq_false_2 by (intros [? ?]; done).
    now rewrite app_nil_r.
  - rewrite bool_decide_eq_true_2 by (by left).
    rewrite bool_decide_eq_false_2 by (intros [? ?]; done).
    now rewrite app_nil_r.
Qed.

Lemma grafo_de_arestas_add_item g es item :
  grafo_de_arestas stations g es →
  grafo_de_arestas stations (add_item g item)
    (es ++ flat_map (aresta_do_par stations item.1) item.2).
Proof.
  unfold add_item. generalize (item.1) (item.2). intros nome pares.
  revert g es. induction pares as [|par pares IH]; intros g es H; simpl.
  - now rewrite app_nil_r.
  - rewrite app_assoc. apply IH. now apply grafo_de_arestas_add_par.
Qed.

Lemma grafo_de_arestas_add_items g es items :
  grafo_de_arestas stations g es →
  grafo_de_arestas stations (fold_left add_item items g)
    (es ++ arestas_dict stations items).
Proof.
  revert g es. induction items as [|item items IH]; intros g es H; simpl.
  - unfold arestas_dict. simpl. now rewrite app_nil_r.
  - unfold arestas_dict in *. simpl. rewrite app_assoc. apply IH.
    now apply grafo_de_arestas_add_item.
Qed.

Lemma grafo_de_arestas_add_line g es line g' :
  grafo_de_arestas stations g es → add_line g line = Ok g' →
  grafo_de_arestas stations g' (es ++ aresta_da_linha line).
Proof.
  intros H E. apply add_line_Ok in E as (o & d & l & Hc & _ & _ & ->).
  unfold aresta_da_linha, campos. rewrite Hc.
  now apply grafo_de_arestas_add_edge.
Qed.

Lemma grafo_de_arestas_add_lines g es lines g' :
  grafo_de_arestas stations g es → add_lines g lines = Ok g' →
  grafo_de_arestas stations g' (es ++ flat_map aresta_da_linha lines).
Proof.
  revert g es. induction lines as [|line lines IH]; intros g es H; simpl.
  - intros [= <-]. now rewrite app_nil_r.
  - destruct (add_line g line) as [g1|e] eqn:E; [|done].
    intros E'. rewrite app_assoc. eapply IH; [|exact E'].
    eapply grafo_de_arestas_add_line; eassumption.
Qed.

Lemma add_line_erro g line :
  dom g = dom stations →
  add_line g line = match erro_da_linha stations line with
                    | Some e => Raise e
                    | None =>
                        match campos line with
                        | [o; d; l] => Ok (add_edge o d l g)
                        | _ => Raise ValueError
                        end
                    end.
Proof.
  intros Hdom. unfold add_line, erro_da_linha, campos.
  destruct (Str.strip <$> Str.split " - " line)
    as [|o [|d [|l [|? ?]]]]; try done.
  rewrite <- Hdom.
  destruct (g !! o) as [adjo|] eqn:Eo.
  - rewrite bool_decide_eq_true_2 by (apply elem_of_dom; eauto).
    destruct (append_adj o (Conexao d l) g !! d) as [adjd|] eqn:Ed.
    + rewrite bool_decide_eq_true_2; [done|].
      assert (Hd : d ∈ dom (append_adj o (Conexao d l) g))
        by (apply elem_of_dom; eauto).
      unfold append_adj in Hd. now rewrite dom_alter_L in Hd.
    + rewrite bool_decide_eq_false_2; [done|].
      intros Hd. assert (Hd' : d ∈ dom (append_adj o (Conexao d l) g))
        by (unfold append_adj; now rewrite dom_alter_L).
      apply elem_of_dom in Hd' as [? Hd']. congruence.
  - rewrite bool_decide_eq_false_2; [done|].
    intros Ho. apply elem_of_dom in Ho as [? Ho]. congruence.
Qed.

End Adjacencia.

(** X1. Mapping form: the builder always returns a graph; its keys are the
    declared stations, and the adjacency list of each station lists, in
    iteration order of the mapping, the far end and line of every accepted
    pair (one with at least two items whose trimmed first two items are
    declared stations) that names the station, origin side first. *)
Theorem build_graph_dict_adjacencia (stations : gmap string (Q * Q))
    (items : list (string * list (list string))) :
  ∃ g, _build_graph stations (EdgesDict items) = Ok g ∧
       ∀ a, g !! a
            = (λ _, adjacencia (arestas_dict stations items) a) <$> stations !! a.
Proof.
  eexists. split; [reflexivity|].
  exact (grafo_de_arestas_add_items stations _ [] items
           (grafo_de_arestas_vazio stations)).
Qed.

(** X2. Flat form: when the builder returns a graph, the adjacency list of
    each declared station lists, in line order, the far end and line of
    every line that names the station. *)
Theorem build_graph_text_adjacencia (stations : gmap string (Q * Q))
    (text : string) (g : gmap string (list conexao)) :
  _build_graph stations (EdgesText text) = Ok g →
  ∀ a, g !! a = (λ _, adjacencia (arestas_texto text) a) <$> stations !! a.
Proof.
  intros E.
  exact (grafo_de_arestas_add_lines stations _ [] (text_lines text) g
           (grafo_de_arestas_vazio stations) E).
Qed.

Lemma build_graph_text_adjacencia_witness :
  Exemplo.grafo_de Exemplo.estacoes_linha (EdgesText Amostra.texto_linha) !! "B"
  = (λ _, adjacencia (arestas_texto Amostra.texto_linha) "B")
      <$> Exemplo.estacoes_linha !! "B".
Proof.
  apply (build_graph_text_adjacencia Exemplo.estacoes_linha Amostra.texto_linha).
  vm_compute. reflexivity.
Defined.

(** X3. The two input forms agree: a text and a mapping that carry the same
    edges in the same order give the same graph. *)
Theorem build_graph_forms_agree (stations : gmap string (Q * Q))
    (items : list (string * list (list string))) (text : string)
    (g : gmap string (list conexao)) :
  arestas_texto text = arestas_dict stations items →
  _build_graph stations (EdgesText text) = Ok g →
  _build_graph stations (EdgesDict items) = Ok g.
Proof.
  intros Hes E. unfold _build_graph. f_equal. apply map_eq. intros a.
  rewrite (grafo_de_arestas_add_items stations _ [] items
             (grafo_de_arestas_vazio stations) a).
  rewrite (grafo_de_arestas_add_lines stations _ [] (text_lines text) g
             (grafo_de_arestas_vazio stations) E a).
  simpl. unfold arestas_texto in Hes. now rewrite Hes.
Qed.

Lemma build_graph_forms_agree_witness : _build_graph Exemplo.estacoes_linha Exemplo.arestas_linha
  = Ok (Exemplo.grafo_de Exemplo.estacoes_linha (EdgesText Amostra.texto_linha)).
Proof.
  apply (build_graph_forms_agree Exemplo.estacoes_linha _ Amostra.texto_linha).
  - vm_compute. reflexivity.
  - vm_compute. reflexivity.
Defined.

(** X4. Flat form: the first line that cannot be taken decides the
    exception. When all lines before it are good, a line without exactly
    three fields raises [ValueError] and a line with three fields naming an
    undeclared station raises [KeyError]. *)
Theorem build_graph_text_first_error (stations : gmap string (Q * Q))
    (text : string) (boas : list string) (ruim : string) (resto : list string)
    (e : exception) :
  text_lines text = boas ++ ruim :: resto →
  Forall (λ l, erro_da_linha stations l = None) boas →
  erro_da_linha stations ruim = Some e →
  _build_graph stations (EdgesText text) = Raise e ∧
  (e = ValueError ↔ length (campos ruim) ≠ 3%nat).
Proof.
  intros Hl Hboas Hruim. split.
  - unfold _build_graph. rewrite Hl. clear Hl.
    assert (H0 : bem_formado stations ((λ _, []) <$> stations)).
    { split; [apply dom_fmap_L | apply simetrico_vazio]. }
    revert H0. generalize ((λ _ : Q * Q, @nil conexao) <$> stations).
    induction Hboas as [|l boas Hl0 _ IH]; intros g Hg; simpl.
    + rewrite (add_line_erro stations g ruim (proj1 Hg)), Hruim. reflexivity.
    + pose proof Hl0 as Hl1. unfold erro_da_linha in Hl1.
      rewrite (add_line_erro stations g l (proj1 Hg)), Hl0.
      destruct (campos l) as [|o [|d [|n [|? ?]]]] eqn:Ec; try done.
      repeat case_bool_decide; try done.
      apply IH. destruct Hg as [Hdom Hs]. split.
      * now rewrite dom_add_edge.
      * apply simetrico_add_edge; [by rewrite Hdom..|done].
  - unfold erro_da_linha in Hruim.
    destruct (campos ruim) as [|o [|d [|n [|? ?]]]] eqn:Ec; simpl;
      try (injection Hruim as <-; split; [intros _; lia | done]).
    repeat case_bool_decide; try done; injection Hruim as <-;
      (split; [done | intros Hn; lia]).
Qed.

Lemma build_graph_text_first_error_witness : _build_graph Exemplo.estacoes_linha (EdgesText Amostra.texto_ruim) = Raise KeyError
   ∧ (KeyError = ValueError ↔ length (campos "B - Z - L") ≠ 3%nat).
Proof.
  apply (build_graph_text_first_error Exemplo.estacoes_linha Amostra.texto_ruim
           ["A - B - L"] "B - Z - L" [] KeyError).
  - vm_compute. reflexivity.
  - constructor; [vm_compute; reflexivity | constructor].
  - vm_compute. reflexivity.
Defined.

(** ** Invariants of the enumerator that no cache content breaks *)

Section Invariante.

Variable gc : Q * Q → Q * Q → Q.
Variable stns : gmap string (Q * Q).
Variable grafo : gmap string (list conexao).
Variable destino : string.
Variable P : string → gset string → Caminho → Prop.

Hypothesis P_base : ∀ V, P destino V (MkCaminho [destino] 0 [] 0).
Hypothesis P_step : ∀ atual V hora la conexoes c ca cn p',
  grafo !! atual = Some conexoes → c ∈ conexoes → vizinho c ∉ V →
  stns !! atual = Some ca → stns !! vizinho c = Some cn →
  P (vizinho c) (V ∪ {[atual]}) p' →
  P atual V
    (caminho_completo atual (linha c) (troca_de_linha la (linha c))
       (_get_tempo_espera hora + gc ca cn / VELOCIDADE_TREM_KMH * 60
        + (if troca_de_linha la (linha c)
           then PENALIDADE_TROCA_LINHA_MIN else 0))%Q p').

Implicit Types cache : gmap (string * gset string) (list Caminho).
Implicit Types V : gset string.

Lemma percorrer_inv rec atual V hora la todas conexoes acc cache ps cache' :
  (∀ n V' h l m res m', cache_inv P m →
     rec n V' h l m = Some (Ok (res, m')) →
     Forall (P n V') res ∧ cache_inv P m') →
  grafo !! atual = Some todas → conexoes ⊆ todas →
  Forall (P atual V) acc → cache_inv P cache →
  percorrer gc stns rec atual V hora la conexoes acc cache
    = Some (Ok (ps, cache')) →
  Forall (P atual V) ps ∧ cache_inv P cache'.
Proof.
  intros Hrec Hg. revert acc cache.
  induction conexoes as [|c resto IH]; intros acc cache Hsub Hacc Hcache; simpl.
  - now intros [= <- <-].
  - assert (Hresto : resto ⊆ todas) by set_solver.
    assert (Hc : c ∈ todas) by set_solver.
    case_bool_decide as Hv; [now apply IH|].
    unfold _get_tempo_deslocamento, _haversine, _get_coords.
    destruct (stns !! atual) as [ca|] eqn:Ea; simpl; [|done].
    destruct (stns !! vizinho c) as [cn|] eqn:En; simpl; [|done].
    destruct (rec _ _ _ _ _) as [[[subs cache1]|e]|] eqn:E; simpl; [|done..].
    destruct (Hrec _ _ _ _ _ _ _ Hcache E) as [Hsubs Hcache1].
    apply IH; [exact Hresto| |exact Hcache1].
    apply Forall_app. split; [exact Hacc|].
    apply Forall_fmap. eapply Forall_impl; [exact Hsubs|].
    intros p Hp. simpl. eapply P_step; eassumption.
Qed.

Lemma recursivo_inv fuel atual V hora la cache ps cache' :
  cache_inv P cache →
  _encontrar_caminhos_recursivo gc stns grafo destino fuel
    atual V hora la cache = Some (Ok (ps, cache')) →
  Forall (P atual V) ps ∧ cache_inv P cache'.
Proof.
  revert atual V hora la cache ps cache'.
  induction fuel as [|fuel IH]; intros atual V hora la cache ps cache' Hcache;
    simpl; [done|].
  case_bool_decide as Hd.
  { intros [= <- <-]. subst atual. split; [|done].
    apply Forall_singleton, P_base. }
  destruct (cache !! (atual, V)) as [guardado|] eqn:Ec.
  { intros [= <- <-]. split; [|done]. eapply Hcache, Ec. }
  destruct (grafo !! atual) as [conexoes|] eqn:Eg; [|done].
  destruct (percorrer _ _ _ _ _ _ _ _ _ _) as [[[cs cache1]|e]|] eqn:E;
    simpl; [|done..].
  intros [= <- <-].
  destruct (percorrer_inv _ _ _ _ _ conexoes _ _ _ _ _
              (λ n V' h l m res m' Hm, IH n V' h l m res m' Hm)
              Eg (reflexivity _) (Forall_nil_2 _) Hcache E) as [Hcs Hcache1].
  split; [exact Hcs|].
  intros a W qs Hq. destruct (decide ((atual, V) = (a, W))) as [[= <- <-]|Hne].
  - rewrite lookup_insert_eq in Hq. now injection Hq as <-.
  - rewrite lookup_insert_ne in Hq by done. eapply Hcache1, Hq.
Qed.

End Invariante.

Lemma cache_inv_empty (P : string → gset string → Caminho → Prop) :
  cache_inv P ∅.
Proof. intros a V ps H. by rewrite lookup_empty in H. Qed.

(** What the three modes select is one of the candidates. *)
Lemma min_go_in (best : Caminho) (l : list Caminho) :
  min_go best l ∈ best :: l.
Proof.
  revert best. induction l as [|x l IH]; intros best; simpl; [set_solver|].
  specialize (IH (if Qltb (tempo x) (tempo best) then x else best)).
  destruct (Qltb (tempo x) (tempo best)); set_solver.
Qed.

Lemma max_go_in (best : Caminho) (l : list Caminho) :
  max_go best l ∈ best :: l.
Proof.
  revert best. induction l as [|x l IH]; intros best; simpl; [set_solver|].
  specialize (IH (if Qltb (tempo best) (tempo x) then x else best)).
  destruct (Qltb (tempo best) (tempo x)); set_solver.
Qed.

Lemma selecionar_in (modo : string) (todos : list Caminho) (p : Caminho) :
  selecionar modo todos = Rota p → p ∈ todos.
Proof.
  unfold selecionar. destruct todos as [|x l]; [done|].
  repeat case_bool_decide.
  - intros [= <-]. apply min_go_in.
  - intros [= <-]. apply max_go_in.
  - destruct (sorted (x :: l) !! _) as [r|] eqn:E; [|done].
    intros [= <-]. rewrite <- (sorted_perm (x :: l)).
    eapply list_elem_of_lookup_2, E.
  - done.
Qed.

Lemma encontrar_caminho_Rota (gc : Q * Q → Q * Q → Q) (r r' : Roteador)
    (origem destino hora modo : string) (p : Caminho) :
  encontrar_caminho gc r origem destino hora modo = Some (Ok (Rota p, r')) →
  origem ∈ dom (stations r) ∧ destino ∈ dom (stations r).
Proof.
  unfold encontrar_caminho. case_bool_decide as H; [done|]. intros _.
  destruct (decide (origem ∈ dom (stations r))); [|naive_solver].
  destruct (decide (destino ∈ dom (stations r))); naive_solver.
Qed.

Section Historico.

Variable gc : Q * Q → Q * Q → Q.
Variable P : string → gset string → Caminho → Prop.

Hypothesis P_base : ∀ d V, P d V (MkCaminho [d] 0 [] 0).

Lemma encontrar_caminho_inv (r r' : Roteador)
    (origem destino hora modo : string) (resp : Resposta) :
  (∀ atual V hora la conexoes c ca cn p',
     graph r !! atual = Some conexoes → c ∈ conexoes → vizinho c ∉ V →
     stations r !! atual = Some ca → stations r !! vizinho c = Some cn →
     P (vizinho c) (V ∪ {[atual]}) p' →
     P atual V
       (caminho_completo atual (linha c) (troca_de_linha la (linha c))
          (_get_tempo_espera hora + gc ca cn / VELOCIDADE_TREM_KMH * 60
           + (if troca_de_linha la (linha c)
              then PENALIDADE_TROCA_LINHA_MIN else 0))%Q p')) →
  cache_inv P (memo r) →
  encontrar_caminho gc r origem destino hora modo = Some (Ok (resp, r')) →
  cache_inv P (memo r') ∧ stations r' = stations r ∧ graph r' = graph r ∧
  ∀ p, resp = Rota p → P origem ∅ p.
Proof.
  intros Hstep Hc. unfold encontrar_caminho.
  case_bool_decide; [now intros [= <- <-]|].
  destruct (Strptime.strptime_HM hora) as [t|e]; simpl; [|done].
  destruct (_encontrar_caminhos_recursivo _ _ _ _ _ _ _ _ _ _)
    as [[[cs cache']|e]|] eqn:E; simpl; [|done..].
  intros [= <- <-]. simpl.
  destruct (recursivo_inv gc _ _ destino P (P_base destino) Hstep
              _ _ _ _ _ _ _ _ Hc E) as [Hcs Hc'].
  repeat split; try done.
  intros p Hp. apply selecionar_in in Hp.
  rewrite Forall_forall in Hcs. now apply Hcs.
Qed.

Lemma consultas_inv (stns : gmap string (Q * Q))
    (g : gmap string (list conexao))
    (qs : list (string * string * string * string)) :
  (∀ atual V hora la conexoes c ca cn p',
     g !! atual = Some conexoes → c ∈ conexoes → vizinho c ∉ V →
     stns !! atual = Some ca → stns !! vizinho c = Some cn →
     P (vizinho c) (V ∪ {[atual]}) p' →
     P atual V
       (caminho_completo atual (linha c) (troca_de_linha la (linha c))
          (_get_tempo_espera hora + gc ca cn / VELOCIDADE_TREM_KMH * 60
           + (if troca_de_linha la (linha c)
              then PENALIDADE_TROCA_LINHA_MIN else 0))%Q p')) →
  ∀ (r0 r : Roteador) (resps : list Resposta),
    stations r0 = stns → graph r0 = g → cache_inv P (memo r0) →
    Exemplo.consultas gc r0 qs = Some (Ok (resps, r)) →
    cache_inv P (memo r) ∧ stations r = stns ∧ graph r = g ∧
    Forall2 (λ q resp, ∀ p, resp = Rota p →
               origem_de q ∈ dom stns ∧ P (origem_de q) ∅ p)
            qs resps.
Proof.
  intros Hstep.
  induction qs as [|[[[origem destino] hora] modo] qs IH];
    intros r0 r resps Hs Hg Hc; simpl.
  - intros [= <- <-]. repeat split; done.
  - destruct (encontrar_caminho gc r0 origem destino hora modo)
      as [[[resp r1]|e]|] eqn:E; simpl; [|done..].
    destruct (Exemplo.consultas gc r1 qs) as [[[resps1 r2]|e]|] eqn:E1;
      simpl; [|done..].
    intros [= <- <-].
    destruct (encontrar_caminho_inv r0 r1 origem destino hora modo resp)
      as (Hc1 & Hs1 & Hg1 & Hp); [| exact Hc | exact E |].
    { subst. exact Hstep. }
    destruct (IH r1 r2 resps1) as (Hc2 & Hs2 & Hg2 & Hall);
      [congruence | congruence | exact Hc1 | exact E1 |].
    repeat split; try done.
    constructor; [|exact Hall].
    intros p ->. split; [|now apply Hp].
    apply encontrar_caminho_Rota in E as [Ho _]. now rewrite <- Hs.
Qed.

End Historico.

(** ** Every answer is a walk of the graph *)

Lemma passeio_length (g : gmap string (list conexao)) (a : string)
    (resto ls : list string) :
  passeio g a resto ls → length resto = length ls.
Proof.
  revert a ls. induction resto as [|b resto IH]; intros a [|l ls]; simpl;
    try done.
  intros [_ H]. f_equal. eapply IH, H.
Qed.

Lemma candidato_valido_base (stns : gmap string (Q * Q))
    (g : gmap string (list conexao)) (d : string) :
  candidato_valido stns g d (MkCaminho [d] 0 [] 0).
Proof. exists []. simpl. repeat split; try done. Qed.

Lemma candidato_valido_step (stns : gmap string (Q * Q))
    (g : gmap string (list conexao)) (atual : string) (conexoes : list conexao)
    (c : conexao) (ca cn : Q * Q) (troca : bool) (tt : Q) (p' : Caminho) :
  g !! atual = Some conexoes → c ∈ conexoes →
  stns !! vizinho c = Some cn →
  candidato_valido stns g (vizinho c) p' →
  candidato_valido stns g atual (caminho_completo atual (linha c) troca tt p').
Proof.
  intros Hg Hc Hn (resto & Hcam & Hw & Hdom & Ht).
  exists (vizinho c :: resto). simpl. rewrite Hcam. repeat split.
  - exists conexoes. split; [exact Hg|]. now destruct c.
  - exact Hw.
  - apply Forall_cons. split; [|exact Hdom]. apply elem_of_dom. eauto.
  - destruct troca; lia.
  - destruct troca; lia.
Qed.

Lemma tres_consultas_run :
  ∃ resps r, Exemplo.consultas Exemplo.taxi Amostra.linha Amostra.tres_consultas
             = Some (Ok (resps, r)) ∧ length resps = 3%nat.
Proof.
  assert (Hn : match Exemplo.consultas Exemplo.taxi Amostra.linha
                       Amostra.tres_consultas with
               | Some (Ok (resps, _)) => length resps
               | _ => 0%nat
               end = 3%nat) by (vm_compute; reflexivity).
  destruct (Exemplo.consultas _ _ _) as [[[resps r]|e]|]; try discriminate Hn.
  eauto.
Qed.

(** X5. On one instance, after any sequence of queries starting from an
    empty cache, every route answered is a walk of the graph from the
    origin of its query: its station sequence starts at the origin, each
    step is an adjacency entry carrying the corresponding line, there is
    one line per step, every station is declared, and the transfer count
    lies between zero and the number of steps. The reuse of cached
    suffixes does not touch this. *)
Theorem consultas_walks (gc : Q * Q → Q * Q → Q) (r0 r : Roteador)
    (qs : list (string * string * string * string)) (resps : list Resposta) :
  memo r0 = ∅ →
  Exemplo.consultas gc r0 qs = Some (Ok (resps, r)) →
  Forall2 (λ q resp, ∀ p, resp = Rota p →
             candidato_valido (stations r0) (graph r0) (origem_de q) p
             ∧ length (caminho p) = S (length (linhas p))
             ∧ Forall (λ s, s ∈ dom (stations r0)) (caminho p))
          qs resps.
Proof.
  intros H0 E.
  destruct (consultas_inv gc
              (λ a _ p, candidato_valido (stations r0) (graph r0) a p)
              (λ d _, candidato_valido_base _ _ d)
              (stations r0) (graph r0) qs) with (r0 := r0) (r := r)
              (resps := resps) as (_ & _ & _ & Hall); try done.
  - intros atual V h la conexoes c ca cn p' Ha Hin _ _ Hn Hp'.
    eapply candidato_valido_step; eassumption.
  - rewrite H0. apply cache_inv_empty.
  - eapply Forall2_impl; [exact Hall|].
    intros q resp Hq p Hp. destruct (Hq p Hp) as [Ho Hv].
    split; [exact Hv|].
    destruct Hv as (resto & Hcam & Hw & Hdom & _).
    rewrite Hcam. simpl. split.
    + f_equal. eapply passeio_length, Hw.
    + apply Forall_cons. split; [exact Ho | exact Hdom].
Qed.

Lemma consultas_walks_witness :
  ∃ resps,
    Forall2 (λ q resp, ∀ p, resp = Rota p →
               candidato_valido (stations Amostra.linha) (graph Amostra.linha)
                 (origem_de q) p
               ∧ length (caminho p) = S (length (linhas p))
               ∧ Forall (λ s, s ∈ dom (stations Amostra.linha)) (caminho p))
            Amostra.tres_consultas resps.
Proof.
  destruct tres_consultas_run as (resps & r & E & _).
  exists resps.
  apply (consultas_walks Exemplo.taxi Amostra.linha r Amostra.tres_consultas
           resps eq_refl E).
Defined.

(** ** A floor under every reported total *)

Lemma tempo_espera_ge_1 (h : Q) : (1 <= _get_tempo_espera h)%Q.
Proof.
  unfold _get_tempo_espera.
  destruct (dt_hour h <? 11); [discriminate|].
  destruct (dt_hour h >=? 18); discriminate.
Qed.

Lemma tempo_trecho_ge_1 (h d : Q) (troca : bool) :
  (0 <= d)%Q →
  (1 <= _get_tempo_espera h + d / VELOCIDADE_TREM_KMH * 60
        + (if troca then PENALIDADE_TROCA_LINHA_MIN else 0))%Q.
Proof.
  intros Hd.
  assert (H1 := tempo_espera_ge_1 h).
  assert (H2 : (0 <= d / VELOCIDADE_TREM_KMH * 60)%Q).
  { apply Qmult_le_0_compat; [|discriminate].
    apply Qmult_le_0_compat; [exact Hd | discriminate]. }
  assert (H3 : (0 <= (if troca then PENALIDADE_TROCA_LINHA_MIN else 0))%Q)
    by (destruct troca; discriminate).
  rewrite <- (Qplus_0_r 1), <- (Qplus_0_r (1 + 0)).
  apply Qplus_le_compat; [apply Qplus_le_compat|]; assumption.
Qed.

Lemma taxi_nonneg (c1 c2 : Q * Q) : (0 <= Exemplo.taxi c1 c2)%Q.
Proof.
  unfold Exemplo.taxi. rewrite <- (Qplus_0_r 0).
  apply Qplus_le_compat; apply Qabs_nonneg.
Qed.

(** X6. When distances are non-negative, every route answered on an
    instance that started with an empty cache reports a total time of at
    least one minute per step, whatever queries came before. *)
Theorem consultas_tempo_floor (gc : Q * Q → Q * Q → Q) (r0 r : Roteador)
    (qs : list (string * string * string * string)) (resps : list Resposta) :
  (∀ c1 c2, 0 <= gc c1 c2)%Q →
  memo r0 = ∅ →
  Exemplo.consultas gc r0 qs = Some (Ok (resps, r)) →
  Forall2 (λ q resp, ∀ p, resp = Rota p →
             (inject_Z (Z.of_nat (length (linhas p))) <= tempo p)%Q)
          qs resps.
Proof.
  intros Hgc H0 E.
  destruct (consultas_inv gc
              (λ _ _ p, (inject_Z (Z.of_nat (length (linhas p))) <= tempo p)%Q)
              (λ _ _, Qle_refl 0)
              (stations r0) (graph r0) qs) with (r0 := r0) (r := r)
              (resps := resps) as (_ & _ & _ & Hall); try done.
  - intros atual V h la conexoes c ca cn p' _ _ _ _ _ Hp'.
    cbn [linhas tempo caminho_completo length].
    rewrite Nat2Z.inj_succ, <- Z.add_1_l, inject_Z_plus.
    apply Qplus_le_compat; [|exact Hp'].
    apply tempo_trecho_ge_1, Hgc.
  - rewrite H0. apply cache_inv_empty.
  - eapply Forall2_impl; [exact Hall|]. intros q resp Hq p Hp.
    now destruct (Hq p Hp).
Qed.

Lemma consultas_tempo_floor_witness :
  ∃ resps,
    Forall2 (λ q resp, ∀ p, resp = Rota p →
               (inject_Z (Z.of_nat (length (linhas p))) <= tempo p)%Q)
            Amostra.tres_consultas resps.
Proof.
  destruct tres_consultas_run as (resps & r & E & _).
  exists resps.
  apply (consultas_tempo_floor Exemplo.taxi Amostra.linha r
           Amostra.tres_consultas resps taxi_nonneg eq_refl E).
Defined.

(** ** Queries on a constructed instance do not fail on lookups *)

Section NuncaFalha.

Variable gc : Q * Q → Q * Q → Q.
Variable stns : gmap string (Q * Q).
Variable grafo : gmap string (list conexao).
Variable destino : string.

Hypothesis Hdom : dom grafo = dom stns.
Hypothesis Hfechado :
  ∀ a adj c, grafo !! a = Some adj → c ∈ adj → vizinho c ∈ dom grafo.

Implicit Types cache : gmap (string * gset string) (list Caminho).
Implicit Types V : gset string.

Lemma percorrer_Ok rec atual V hora la todas conexoes acc cache :
  grafo !! atual = Some todas → conexoes ⊆ todas →
  (∀ c h m, c ∈ conexoes → vizinho c ∉ V →
     ∃ res m', rec (vizinho c) (V ∪ {[atual]}) h (Some (linha c)) m
               = Some (Ok (res, m'))) →
  ∃ ps cache',
    percorrer gc stns rec atual V hora la conexoes acc cache
    = Some (Ok (ps, cache')).
Proof.
  intros Hg. revert acc cache.
  induction conexoes as [|c resto IH]; intros acc cache Hsub Hrec; simpl;
    [eauto|].
  assert (Hresto : ∀ acc1 cache1, ∃ ps cache',
    percorrer gc stns rec atual V hora la resto acc1 cache1
    = Some (Ok (ps, cache'))).
  { intros acc1 cache1. apply IH; [set_solver|].
    intros c' h m Hc'. apply Hrec. now apply list_elem_of_further. }
  case_bool_decide as Hv; [apply Hresto|].
  assert (Ha : atual ∈ dom stns)
    by (rewrite <- Hdom; apply elem_of_dom; eauto).
  assert (Hn : vizinho c ∈ dom stns).
  { rewrite <- Hdom. eapply Hfechado; [exact Hg|]. set_solver. }
  apply elem_of_dom in Ha as [ca Ea]. apply elem_of_dom in Hn as [cn En].
  unfold _get_tempo_deslocamento, _haversine, _get_coords.
  rewrite Ea, En. simpl.
  destruct (Hrec c (hora + (_get_tempo_espera hora
                            + gc ca cn / VELOCIDADE_TREM_KMH * 60
                            + (if troca_de_linha la (linha c)
                               then PENALIDADE_TROCA_LINHA_MIN else 0)))%Q
              cache (list_elem_of_here _ _) Hv) as (subs & cache1 & ->).
  simpl. apply Hresto.
Qed.

Lemma recursivo_Ok fuel atual V hora la cache :
  atual ∈ dom grafo ∨ atual = destino →
  (medida grafo atual V < fuel)%nat →
  ∃ ps cache',
    _encontrar_caminhos_recursivo gc stns grafo destino fuel
      atual V hora la cache = Some (Ok (ps, cache')).
Proof.
  revert atual V hora la cache.
  induction fuel as [|fuel IH]; intros atual V hora la cache Ha Hm; [lia|].
  simpl. case_bool_decide as Hd; [eauto|].
  destruct Ha as [Ha|Ha]; [|done].
  destruct (cache !! (atual, V)); [eauto|].
  pose proof Ha as Ha'. apply elem_of_dom in Ha' as [conexoes Eg]. rewrite Eg.
  destruct (percorrer_Ok
              (_encontrar_caminhos_recursivo gc stns grafo destino fuel)
              atual V hora la conexoes conexoes [] cache Eg (reflexivity _))
    as (cs & cache1 & ->); [|simpl; eauto].
  intros c h m Hc Hv. apply IH.
  - left. eapply Hfechado; eassumption.
  - pose proof (medida_decreases grafo atual V (vizinho c) Ha Hv). lia.
Qed.

End NuncaFalha.

Lemma init_consistente (stations_data : gmap string (Q * Q))
    (edges : edges_data) (r : Roteador) :
  __init__ stations_data edges = Ok r →
  consistente r ∧ memo r = ∅ ∧ stations r = stations_data.
Proof.
  unfold __init__.
  destruct (_build_graph stations_data edges) as [g|e] eqn:E; [|done].
  intros [= <-]. simpl.
  apply build_graph_bem_formado in E as [Hdom Hs].
  repeat split; try done.
  intros a adj [b l] Ha Hc. simpl.
  destruct (Hs a b l adj Ha Hc) as (adj' & Eb & _).
  apply elem_of_dom. eauto.
Qed.

Lemma encontrar_caminho_consistente (gc : Q * Q → Q * Q → Q) (r : Roteador)
    (origem destino hora modo : string) :
  consistente r →
  (∃ resp r', encontrar_caminho gc r origem destino hora modo
              = Some (Ok (resp, r')) ∧ consistente r') ∨
  (encontrar_caminho gc r origem destino hora modo = Some (Raise ValueError)
   ∧ Strptime.strptime_HM hora = Raise ValueError).
Proof.
  intros [Hdom Hf]. unfold encontrar_caminho.
  case_bool_decide as Hst; [left; eexists _, _; split; [done|by split]|].
  destruct (Strptime.strptime_HM hora) as [t|e] eqn:Et; simpl.
  - left.
    assert (Ho : origem ∈ dom (graph r)).
    { rewrite Hdom. destruct (decide (origem ∈ dom (stations r))); naive_solver. }
    destruct (recursivo_Ok gc (stations r) (graph r) destino Hdom Hf
                (budget r) origem ∅ t None (memo r)) as (cs & cache' & ->).
    + by left.
    + unfold medida, budget. rewrite bool_decide_eq_false_2 by set_solver.
      replace (dom (graph r) ∖ ∅) with (dom (graph r)) by set_solver. lia.
    + simpl. eexists _, _. split; [done|]. by split.
  - right. apply strptime_HM_raises_only_ValueError in Et as ->. by split.
Qed.

(** X7. An instance made by the constructor never fails a lookup: through
    any sequence of queries, no access to [self.graph], [self.stations] or
    [self.memo] made while answering raises [KeyError]. Every station the
    search reaches is a key of the graph and of the station table, because
    the constructor only lets declared stations into the adjacency lists.
    The run of the model is defined, so the statement is not empty; the
    exceptions outside the model (see [great_circle_km]) are not
    concerned. *)
Theorem consultas_never_KeyError (gc : Q * Q → Q * Q → Q)
    (stations_data : gmap string (Q * Q)) (edges : edges_data) (r0 : Roteador)
    (qs : list (string * string * string * string)) :
  __init__ stations_data edges = Ok r0 →
  ∃ res, Exemplo.consultas gc r0 qs = Some res ∧ res ≠ Raise KeyError.
Proof.
  intros Hinit. apply init_consistente in Hinit as (Hc & _ & _).
  revert r0 Hc.
  induction qs as [|[[[origem destino] hora] modo] qs IH]; intros r0 Hc; simpl.
  - eexists. split; [done|]. discriminate.
  - destruct (encontrar_caminho_consistente gc r0 origem destino hora modo Hc)
      as [(resp & r1 & -> & Hc1)|[-> Hp]]; simpl.
    + destruct (IH r1 Hc1) as (res & -> & Hres).
      destruct res as [[resps r2]|e]; simpl.
      * eexists. split; [done|]. discriminate.
      * eexists. split; [done|]. intros [= ->]. now apply Hres.
    + eexists. split; [done|]. discriminate.
Qed.

Lemma consultas_never_KeyError_witness :
  ∃ res, Exemplo.consultas Exemplo.taxi Amostra.linha
           [("A", "C", "10:00", "menor"); ("A", "B", "25:00", "menor")]
         = Some res ∧ res ≠ Raise KeyError.
Proof.
  apply (consultas_never_KeyError Exemplo.taxi Exemplo.estacoes_linha
           Exemplo.arestas_linha Amostra.linha).
  vm_compute. reflexivity.
Defined.

(** ** The enumerator misses no simple path *)

Lemma last_elem_of {A} (l : list A) (x : A) : last l = Some x → x ∈ l.
Proof.
  intros H. apply last_Some in H as [l' ->]. set_solver.
Qed.

Lemma cache_completo_empty (g : gmap string (list conexao)) (destino : string) :
  cache_completo g destino ∅.
Proof. intros a V ps H. by rewrite lookup_empty in H. Qed.

Section Completude.

Variable gc : Q * Q → Q * Q → Q.
Variable stns : gmap string (Q * Q).
Variable grafo : gmap string (list conexao).
Variable destino : string.

Implicit Types cache : gmap (string * gset string) (list Caminho).
Implicit Types V : gset string.

Lemma completo_base V :
  completo grafo destino destino V [MkCaminho [destino] 0 [] 0].
Proof.
  intros resto ls Hw Hnd _ Hlast.
  destruct resto as [|b resto].
  - destruct ls; [|done]. eexists. split; [apply list_elem_of_here|done].
  - exfalso. rewrite last_cons_cons in Hlast. apply last_elem_of in Hlast.
    apply NoDup_cons_1_1 in Hnd. done.
Qed.

Lemma percorrer_completo rec atual V hora la conexoes acc cache ps cache' :
  (∀ n V' h l m res m', cache_completo grafo destino m →
     rec n V' h l m = Some (Ok (res, m')) →
     completo grafo destino n V' res ∧ cache_completo grafo destino m') →
  cache_completo grafo destino cache →
  percorrer gc stns rec atual V hora la conexoes acc cache
    = Some (Ok (ps, cache')) →
  cache_completo grafo destino cache' ∧
  (∀ p, p ∈ acc → p ∈ ps) ∧
  ∀ c resto ls,
    c ∈ conexoes → vizinho c ∉ V →
    passeio grafo (vizinho c) resto ls → NoDup (vizinho c :: resto) →
    (∀ x, x ∈ resto → x ∉ V ∪ {[atual]}) →
    last (vizinho c :: resto) = Some destino →
    ∃ p, p ∈ ps ∧ caminho p = atual :: vizinho c :: resto
         ∧ linhas p = linha c :: ls.
Proof.
  intros Hrec. revert acc cache.
  induction conexoes as [|c0 resto0 IH]; intros acc cache Hcache; simpl.
  - intros [= <- <-]. repeat split; try done.
    intros c resto ls Hc. by apply elem_of_nil in Hc.
  - case_bool_decide as Hv.
    + intros E. destruct (IH _ _ Hcache E) as (Hc' & Hacc & Hall).
      repeat split; try done.
      intros c resto ls Hc HcV. apply elem_of_cons in Hc as [->|Hc]; [done|].
      now apply Hall.
    + destruct (_get_tempo_deslocamento gc stns atual (vizinho c0)) as [td|e];
        simpl; [|done].
      destruct (rec _ _ _ _ _) as [[[subs cache1]|e]|] eqn:E1; simpl; [|done..].
      destruct (Hrec _ _ _ _ _ _ _ Hcache E1) as [Hsubs Hcache1].
      intros E. destruct (IH _ _ Hcache1 E) as (Hc' & Hacc & Hall).
      repeat split; try done.
      { intros p Hp. apply Hacc. set_solver. }
      intros c resto ls Hc HcV Hw Hnd Hav Hlast.
      apply elem_of_cons in Hc as [->|Hc]; [|now apply Hall].
      destruct (Hsubs resto ls Hw Hnd Hav Hlast) as (p' & Hp' & Hcam & Hlin).
      eexists. split.
      * apply Hacc. apply elem_of_app. right.
        apply list_elem_of_fmap. exists p'. split; [reflexivity|exact Hp'].
      * simpl. now rewrite Hcam, Hlin.
Qed.

Lemma recursivo_completo fuel atual V hora la cache ps cache' :
  cache_completo grafo destino cache →
  _encontrar_caminhos_recursivo gc stns grafo destino fuel
    atual V hora la cache = Some (Ok (ps, cache')) →
  completo grafo destino atual V ps ∧ cache_completo grafo destino cache'.
Proof.
  revert atual V hora la cache ps cache'.
  induction fuel as [|fuel IH]; intros atual V hora la cache ps cache' Hcache;
    simpl; [done|].
  case_bool_decide as Hd.
  { intros [= <- <-]. subst atual. split; [apply completo_base|done]. }
  destruct (cache !! (atual, V)) as [guardado|] eqn:Ec.
  { intros [= <- <-]. split; [|done]. eapply Hcache, Ec. }
  destruct (grafo !! atual) as [conexoes|] eqn:Eg; [|done].
  destruct (percorrer _ _ _ _ _ _ _ _ _ _) as [[[cs cache1]|e]|] eqn:E;
    simpl; [|done..].
  intros [= <- <-].
  destruct (percorrer_completo _ _ _ _ _ _ _ _ _ _
              (λ n V' h l m res m' Hm, IH n V' h l m res m' Hm) Hcache E)
    as (Hcache1 & _ & Hall).
  assert (Hcs : completo grafo destino atual V cs).
  { intros resto ls Hw Hnd Hav Hlast.
    destruct resto as [|n resto]; [simpl in Hlast; congruence|].
    destruct ls as [|l ls]; [done|]. destruct Hw as [(adj & Ha & Hin) Hw].
    rewrite Eg in Ha. injection Ha as <-.
    destruct (Hall (Conexao n l) resto ls Hin) as (p & Hp & Hcam & Hlin);
      simpl; try done.
    - apply Hav. apply list_elem_of_here.
    - now apply NoDup_cons_1_2 in Hnd.
    - intros x Hx. apply not_elem_of_union. split.
      + apply Hav. now apply list_elem_of_further.
      + apply NoDup_cons_1_1 in Hnd. set_solver.
    - eauto. }
  split; [exact Hcs|].
  intros a W qs Hq. destruct (decide ((atual, V) = (a, W))) as [[= <- <-]|Hne].
  - rewrite lookup_insert_eq in Hq. now injection Hq as <-.
  - rewrite lookup_insert_ne in Hq by done. eapply Hcache1, Hq.
Qed.

End Completude.

Lemma passeio_cons (g : gmap string (list conexao)) (a b l : string)
    (adj : list conexao) (resto ls : list string) :
  g !! a = Some adj → Conexao b l ∈ adj → passeio g b resto ls →
  passeio g a (b :: resto) (l :: ls).
Proof. intros Ha Hin Hw. split; [eauto | exact Hw]. Qed.

Lemma losango_run :
  ∃ todos cache',
    _encontrar_caminhos_recursivo Exemplo.taxi (stations Amostra.losango)
      (graph Amostra.losango) "D" (budget Amostra.losango) "A" ∅
      (inject_Z 600) None (memo Amostra.losango) = Some (Ok (todos, cache'))
    ∧ length todos = 4%nat.
Proof.
  assert (Hn : match _encontrar_caminhos_recursivo Exemplo.taxi
                       (stations Amostra.losango) (graph Amostra.losango) "D"
                       (budget Amostra.losango) "A" ∅ (inject_Z 600) None
                       (memo Amostra.losango) with
               | Some (Ok (todos, _)) => length todos
               | _ => 0%nat
               end = 4%nat) by (vm_compute; reflexivity).
  destruct (_encontrar_caminhos_recursivo _ _ _ _ _ _ _ _ _ _)
    as [[[todos cache']|e]|]; try discriminate Hn.
  eauto.
Qed.

(** X8. The enumerator misses no simple path: on a cache that is empty, or
    that earlier queries for the same destination filled, the candidates
    returned to the entry point include every walk of the graph from the
    origin to the destination that repeats no station, with its line
    sequence; and the cache left behind is again such a cache. *)
Theorem encontrar_caminho_completo (gc : Q * Q → Q * Q → Q) (r : Roteador)
    (origem destino : string) (t : Q) (todos : list Caminho)
    (cache' : gmap (string * gset string) (list Caminho)) :
  cache_completo (graph r) destino (memo r) →
  _encontrar_caminhos_recursivo gc (stations r) (graph r) destino (budget r)
    origem ∅ t None (memo r) = Some (Ok (todos, cache')) →
  cache_completo (graph r) destino cache' ∧
  ∀ resto ls,
    passeio (graph r) origem resto ls → NoDup (origem :: resto) →
    last (origem :: resto) = Some destino →
    ∃ p, p ∈ todos ∧ caminho p = origem :: resto ∧ linhas p = ls.
Proof.
  intros Hcache E.
  destruct (recursivo_completo gc _ _ _ _ _ _ _ _ _ _ _ Hcache E) as [Hc Hc'].
  split; [exact Hc'|]. intros resto ls Hw Hnd Hlast.
  apply Hc; done.
Qed.

Lemma encontrar_caminho_completo_witness :
  ∃ (todos : list Caminho) (p : Caminho),
    p ∈ todos ∧ caminho p = ["A"; "C"; "B"; "X"; "D"]
    ∧ linhas p = ["L2"; "L1"; "L2"; "L1"].
Proof.
  destruct losango_run as (todos & cache' & E & _).
  destruct (encontrar_caminho_completo Exemplo.taxi Amostra.losango "A" "D"
              (inject_Z 600) todos cache' (cache_completo_empty _ _) E)
    as [_ Hall].
  destruct (Hall ["C"; "B"; "X"; "D"] ["L2"; "L1"; "L2"; "L1"]) as (p & Hp).
  - repeat (eapply passeio_cons;
      [ vm_compute; reflexivity
      | refine (bool_decide_unpack _ _); vm_compute; exact I
      | ]).
    exact I.
  - refine (bool_decide_unpack _ _). vm_compute. exact I.
  - reflexivity.
  - eauto.
Defined.

(** ** What a stored entry does to later queries *)

Lemma recursivo_stores (gc : Q * Q → Q * Q → Q) (stns : gmap string (Q * Q))
    (grafo : gmap string (list conexao)) (destino : string) (fuel : nat)
    (atual : string) (V : gset string) (hora : Q) (la : option string)
    (cache cache' : gmap (string * gset string) (list Caminho))
    (ps : list Caminho) :
  atual ≠ destino →
  _encontrar_caminhos_recursivo gc stns grafo destino fuel
    atual V hora la cache = Some (Ok (ps, cache')) →
  cache' !! (atual, V) = Some ps.
Proof.
  intros Hne. destruct fuel as [|fuel]; simpl; [done|].
  rewrite bool_decide_eq_false_2 by done.
  destruct (cache !! (atual, V)) as [guardado|] eqn:Ec.
  { now intros [= <- <-]. }
  destruct (grafo !! atual) as [conexoes|]; [|done].
  destruct (percorrer _ _ _ _ _ _ _ _ _ _) as [[[cs cache1]|e]|];
    simpl; [|done..].
  intros [= <- <-]. apply lookup_insert_eq.
Qed.

Lemma budget_S (r : Roteador) : budget r = S (2 * size (dom (graph r)) + 1).
Proof. unfold budget. lia. Qed.

Lemma linha_AC_run :
  ∃ resp r1, encontrar_caminho Exemplo.taxi Amostra.linha "A" "C" "10:00" "menor"
             = Some (Ok (resp, r1)).
Proof.
  assert (Hn : match encontrar_caminho Exemplo.taxi Amostra.linha
                       "A" "C" "10:00" "menor" with
               | Some (Ok _) => true
               | _ => false
               end = true) by (vm_compute; reflexivity).
  destruct (encontrar_caminho _ _ _ _ _ _) as [[[resp r1]|e]|];
    try discriminate Hn.
  eauto.
Qed.

Lemma in_linha (s : string) :
  s = "A" ∨ s = "B" ∨ s = "C" → s ∈ dom (stations Amostra.linha).
Proof.
  intros [-> | [-> | ->]]; refine (bool_decide_unpack _ _); vm_compute; exact I.
Qed.

(** X9. Once a query from a station to another station has been answered,
    its candidate list is stored under (origin, empty visited set), and
    every later query from that origin, to any other declared destination
    and at any start time that parses, is answered by selecting from that
    same list, leaving the instance as it is. *)
Theorem encontrar_caminho_repeat (gc : Q * Q → Q * Q → Q) (r r1 : Roteador)
    (origem destino hora modo : string) (resp : Resposta) :
  origem ∈ dom (stations r) → destino ∈ dom (stations r) →
  origem ≠ destino →
  encontrar_caminho gc r origem destino hora modo = Some (Ok (resp, r1)) →
  ∃ todos,
    resp = selecionar modo todos ∧
    memo r1 !! (origem, ∅) = Some todos ∧
    ∀ destino' hora' modo' t',
      destino' ∈ dom (stations r) → origem ≠ destino' →
      Strptime.strptime_HM hora' = Ok t' →
      encontrar_caminho gc r1 origem destino' hora' modo'
      = Some (Ok (selecionar modo' todos, r1)).
Proof.
  intros Ho Hd Hne E.
  destruct (encontrar_caminho_keeps_memo _ _ _ _ _ _ _ _ E) as (_ & Hs & Hg).
  destruct (encontrar_caminho_selecionar _ _ _ _ _ _ _ _ Ho Hd E)
    as (t & todos & _ & Erec & ->).
  exists todos. split; [done|].
  pose proof (recursivo_stores _ _ _ _ _ _ _ _ _ _ _ _ Hne Erec) as Hst.
  split; [exact Hst|].
  intros destino' hora' modo' t' Hd' Hne' Ht'.
  unfold encontrar_caminho. rewrite Hs.
  rewrite bool_decide_eq_false_2 by (intros [?|?]; done).
  rewrite Ht'. cbn [lift fbind]. rewrite budget_S.
  rewrite (recursivo_cache_hit gc _ _ destino' _ origem ∅ t' None (memo r1)
             todos Hne' Hst).
  cbn [fbind]. rewrite <- Hs. now destruct r1.
Qed.

Lemma encontrar_caminho_repeat_witness :
  ∃ (r1 : Roteador) (todos : list Caminho),
    memo r1 !! ("A", ∅) = Some todos ∧
    encontrar_caminho Exemplo.taxi r1 "A" "B" "18:45" "maior"
    = Some (Ok (selecionar "maior" todos, r1)).
Proof.
  destruct linha_AC_run as (resp & r1 & E).
  destruct (encontrar_caminho_repeat Exemplo.taxi Amostra.linha r1
              "A" "C" "10:00" "menor" resp) as (todos & _ & Hm & Hnext).
  - apply in_linha. tauto.
  - apply in_linha. tauto.
  - discriminate.
  - exact E.
  - exists r1, todos. split; [exact Hm|].
    apply (Hnext "B" "18:45" "maior" (inject_Z 1125)).
    + apply in_linha. tauto.
    + discriminate.
    + vm_compute. reflexivity.
Defined.

(** X10. A query from a declared station to itself, with a start time that
    parses and one of the three modes, is answered with the single path
    that holds that station alone, zero time, no line and no transfer; the
    cache is neither read nor written, so the answer is the same on any
    instance. *)
Theorem encontrar_caminho_same_station (gc : Q * Q → Q * Q → Q) (r : Roteador)
    (estacao hora modo : string) (t : Q) :
  estacao ∈ dom (stations r) →
  Strptime.strptime_HM hora = Ok t →
  modo = "menor" ∨ modo = "maior" ∨ modo = "medio" →
  encontrar_caminho gc r estacao estacao hora modo
  = Some (Ok (Rota (MkCaminho [estacao] 0 [] 0), r)).
Proof.
  intros He Ht Hm. unfold encontrar_caminho.
  rewrite bool_decide_eq_false_2 by (intros [?|?]; done).
  rewrite Ht. cbn [lift fbind]. rewrite budget_S.
  cbn [_encontrar_caminhos_recursivo].
  rewrite bool_decide_eq_true_2 by done. cbn [fbind].
  destruct r. simpl. do 3 f_equal.
  destruct Hm as [-> | [-> | ->]]; reflexivity.
Qed.

Lemma encontrar_caminho_same_station_witness :
  encontrar_caminho Exemplo.taxi Amostra.linha "B" "B" "09:15" "medio"
  = Some (Ok (Rota (MkCaminho ["B"] 0 [] 0), Amostra.linha)).
Proof.
  apply (encontrar_caminho_same_station Exemplo.taxi Amostra.linha
           "B" "09:15" "medio" (inject_Z 555)).
  - apply in_linha. tauto.
  - vm_compute. reflexivity.
  - tauto.
Defined.

(** ** The fastest and the slowest mode *)

Lemma min_go_first (l : list Caminho) :
  ∀ (pre : list Caminho) (best : Caminho) (mid : list Caminho),
    (∀ q, q ∈ pre → (tempo best < tempo q)%Q) →
    (∀ q, q ∈ mid → (tempo best <= tempo q)%Q) →
    ∃ pre' post',
      pre ++ best :: mid ++ l = pre' ++ min_go best l :: post' ∧
      (∀ q, q ∈ pre' → (tempo (min_go best l) < tempo q)%Q) ∧
      (∀ q, q ∈ post' → (tempo (min_go best l) <= tempo q)%Q).
Proof.
  induction l as [|x l IH]; intros pre best mid Hpre Hmid; simpl.
  - exists pre, mid. now rewrite app_nil_r.
  - destruct (Qltb (tempo x) (tempo best)) eqn:E.
    + apply Qltb_true in E.
      destruct (IH (pre ++ best :: mid) x []) as (pre' & post' & Heq & H1 & H2).
      * intros q Hq. apply elem_of_app in Hq as [Hq|Hq].
        { eapply Qlt_trans; [exact E | now apply Hpre]. }
        apply elem_of_cons in Hq as [->|Hq]; [exact E|].
        eapply Qlt_le_trans; [exact E | now apply Hmid].
      * intros q Hq. by apply elem_of_nil in Hq.
      * exists pre', post'. split; [|done].
        rewrite <- Heq. simpl. now rewrite <- app_assoc.
    + apply Qltb_false in E.
      destruct (IH pre best (mid ++ [x])) as (pre' & post' & Heq & H1 & H2).
      * exact Hpre.
      * intros q Hq. apply elem_of_app in Hq as [Hq|Hq]; [now apply Hmid|].
        apply list_elem_of_singleton in Hq as ->. exact E.
      * exists pre', post'. split; [|done].
        rewrite <- Heq. now rewrite <- app_assoc.
Qed.

Lemma max_go_first (l : list Caminho) :
  ∀ (pre : list Caminho) (best : Caminho) (mid : list Caminho),
    (∀ q, q ∈ pre → (tempo q < tempo best)%Q) →
    (∀ q, q ∈ mid → (tempo q <= tempo best)%Q) →
    ∃ pre' post',
      pre ++ best :: mid ++ l = pre' ++ max_go best l :: post' ∧
      (∀ q, q ∈ pre' → (tempo q < tempo (max_go best l))%Q) ∧
      (∀ q, q ∈ post' → (tempo q <= tempo (max_go best l))%Q).
Proof.
  induction l as [|x l IH]; intros pre best mid Hpre Hmid; simpl.
  - exists pre, mid. now rewrite app_nil_r.
  - destruct (Qltb (tempo best) (tempo x)) eqn:E.
    + apply Qltb_true in E.
      destruct (IH (pre ++ best :: mid) x []) as (pre' & post' & Heq & H1 & H2).
      * intros q Hq. apply elem_of_app in Hq as [Hq|Hq].
        { eapply Qlt_trans; [now apply Hpre | exact E]. }
        apply elem_of_cons in Hq as [->|Hq]; [exact E|].
        eapply Qle_lt_trans; [now apply Hmid | exact E].
      * intros q Hq. by apply elem_of_nil in Hq.
      * exists pre', post'. split; [|done].
        rewrite <- Heq. simpl. now rewrite <- app_assoc.
    + apply Qltb_false in E.
      destruct (IH pre best (mid ++ [x])) as (pre' & post' & Heq & H1 & H2).
      * exact Hpre.
      * intros q Hq. apply elem_of_app in Hq as [Hq|Hq]; [now apply Hmid|].
        apply list_elem_of_singleton in Hq as ->. exact E.
      * exists pre', post'. split; [|done].
        rewrite <- Heq. now rewrite <- app_assoc.
Qed.

(** X11. On a non-empty collection the fastest mode returns a candidate
    whose total time no other candidate undercuts, and among candidates of
    equal total time the one enumerated first: every candidate before it in
    the collection is strictly slower. *)
Theorem menor_first_minimum (todos_caminhos : list Caminho) :
  todos_caminhos ≠ [] →
  ∃ r pre post,
    selecionar "menor" todos_caminhos = Rota r ∧
    todos_caminhos = pre ++ r :: post ∧
    (∀ q, q ∈ pre → (tempo r < tempo q)%Q) ∧
    (∀ q, q ∈ post → (tempo r <= tempo q)%Q).
Proof.
  intros Hne. destruct todos_caminhos as [|x l]; [done|].
  destruct (min_go_first l [] x []) as (pre & post & Heq & H1 & H2);
    try (intros q Hq; by apply elem_of_nil in Hq).
  exists (min_go x l), pre, post. repeat split; try done.
Qed.

Lemma menor_first_minimum_witness :
  ∃ r pre post,
    selecionar "menor" Exemplo.quatro_caminhos = Rota r ∧
    Exemplo.quatro_caminhos = pre ++ r :: post ∧
    (∀ q, q ∈ pre → (tempo r < tempo q)%Q) ∧
    (∀ q, q ∈ post → (tempo r <= tempo q)%Q).
Proof. apply (menor_first_minimum Exemplo.quatro_caminhos). discriminate. Defined.

(** X12. On a non-empty collection the slowest mode returns a candidate
    whose total time no other candidate exceeds, and among candidates of
    equal total time the one enumerated first. *)
Theorem maior_first_maximum (todos_caminhos : list Caminho) :
  todos_caminhos ≠ [] →
  ∃ r pre post,
    selecionar "maior" todos_caminhos = Rota r ∧
    todos_caminhos = pre ++ r :: post ∧
    (∀ q, q ∈ pre → (tempo q < tempo r)%Q) ∧
    (∀ q, q ∈ post → (tempo q <= tempo r)%Q).
Proof.
  intros Hne. destruct todos_caminhos as [|x l]; [done|].
  destruct (max_go_first l [] x []) as (pre & post & Heq & H1 & H2);
    try (intros q Hq; by apply elem_of_nil in Hq).
  exists (max_go x l), pre, post. repeat split; try done.
Qed.

Lemma maior_first_maximum_witness :
  ∃ r pre post,
    selecionar "maior" Exemplo.quatro_caminhos = Rota r ∧
    Exemplo.quatro_caminhos = pre ++ r :: post ∧
    (∀ q, q ∈ pre → (tempo q < tempo r)%Q) ∧
    (∀ q, q ∈ post → (tempo q <= tempo r)%Q).
Proof. apply (maior_first_maximum Exemplo.quatro_caminhos). discriminate. Defined.

(** ** The median mode against the fastest mode *)

Lemma head_inserir (x : Caminho) (l : list Caminho) :
  head (inserir x l)
  = Some (match head l with
          | Some m => if Qltb (tempo m) (tempo x) then m else x
          | None => x
          end).
Proof.
  destruct l as [|y l]; simpl; [done|].
  now destruct (Qltb (tempo y) (tempo x)).
Qed.

Lemma min_go_head_sorted (l : list Caminho) (x : Caminho) :
  min_go x l = match head (sorted l) with
               | Some m => if Qltb (tempo m) (tempo x) then m else x
               | None => x
               end.
Proof.
  revert x. induction l as [|y l IH]; intros x; simpl; [done|].
  rewrite IH, head_inserir.
  destruct (head (sorted l)) as [m|].
  - destruct (Qltb (tempo y) (tempo x)) eqn:Eyx;
      destruct (Qltb (tempo m) (tempo y)) eqn:Emy; try done.
    + apply Qltb_true in Eyx, Emy.
      assert (Hmx : Qltb (tempo m) (tempo x) = true).
      { destruct (Qltb (tempo m) (tempo x)) eqn:E; [done|].
        apply Qltb_false in E. exfalso.
        apply (Qlt_irrefl (tempo m)).
        eapply Qlt_le_trans; [exact Emy|].
        eapply Qle_trans; [apply Qlt_le_weak, Eyx | exact E]. }
      now rewrite Hmx.
    + now rewrite Eyx.
    + rewrite Eyx. apply Qltb_false in Eyx, Emy.
      assert (Hmx : Qltb (tempo m) (tempo x) = false).
      { destruct (Qltb (tempo m) (tempo x)) eqn:E; [|done].
        apply Qltb_true in E. exfalso.
        apply (Qlt_irrefl (tempo m)).
        eapply Qlt_le_trans; [exact E|]. eapply Qle_trans; eassumption. }
      now rewrite Hmx.
  - now destruct (Qltb (tempo y) (tempo x)).
Qed.

(** X13. The fastest mode returns the first item of the stable ascending
    sort that the median mode indexes; with one or two candidates the
    median mode and the fastest mode select the same path. *)
Theorem medio_menor_small (todos_caminhos : list Caminho) :
  todos_caminhos ≠ [] →
  (∃ r, selecionar "menor" todos_caminhos = Rota r
        ∧ head (sorted todos_caminhos) = Some r) ∧
  ((length todos_caminhos ≤ 2)%nat →
   selecionar "medio" todos_caminhos = selecionar "menor" todos_caminhos).
Proof.
  intros Hne. destruct todos_caminhos as [|x l]; [done|].
  assert (Hh : head (sorted (x :: l)) = Some (min_go x l)).
  { simpl. rewrite head_inserir. f_equal. symmetry. apply min_go_head_sorted. }
  split; [exists (min_go x l); by split|].
  intros Hlen. unfold selecionar.
  rewrite !bool_decide_eq_false_2 by discriminate.
  rewrite !bool_decide_eq_true_2 by reflexivity.
  cbv zeta. rewrite sorted_length.
  replace ((length (x :: l) - 1) / 2)%nat with 0%nat.
  - rewrite <- head_lookup, Hh. reflexivity.
  - destruct l as [|y [|z l]]; simpl in *; try reflexivity. lia.
Qed.

Lemma medio_menor_small_witness :
  selecionar "medio" (take 2 Exemplo.quatro_caminhos)
  = selecionar "menor" (take 2 Exemplo.quatro_caminhos).
Proof.
  apply (proj2 (medio_menor_small (take 2 Exemplo.quatro_caminhos)
                  ltac:(discriminate))).
  simpl. lia.
Defined.

(** ** Which outcome is reported *)

Lemma sorted_median_is_Some (x : Caminho) (l : list Caminho) :
  ∃ r, sorted (x :: l) !! ((length (sorted (x :: l)) - 1) / 2)%nat = Some r.
Proof.
  apply lookup_lt_is_Some_2. rewrite sorted_length.
  apply Nat.Div0.div_lt_upper_bound. cbn [length]. lia.
Qed.

Lemma selecionar_NenhumCaminho (modo : string) (todos : list Caminho) :
  selecionar modo todos = NenhumCaminho ↔ todos = [].
Proof.
  destruct todos as [|x l]; [done|].
  destruct (sorted_median_is_Some x l) as [rm Hrm].
  unfold selecionar. cbv zeta. rewrite Hrm.
  repeat case_bool_decide; naive_solver.
Qed.

(** X14. What the selection step reports depends on the candidates first
    and on the mode second: an empty collection is reported as no path
    whatever the mode is, even an unknown one; a non-empty collection gives
    a route for each of the three modes and an invalid-mode report for any
    other string. *)
Theorem selecionar_outcomes (modo : string) (todos_caminhos : list Caminho) :
  (selecionar modo todos_caminhos = NenhumCaminho ↔ todos_caminhos = []) ∧
  (selecionar modo todos_caminhos = ModoInvalido ↔
     todos_caminhos ≠ [] ∧ modo ≠ "menor" ∧ modo ≠ "maior" ∧ modo ≠ "medio") ∧
  ((∃ r, selecionar modo todos_caminhos = Rota r) ↔
     todos_caminhos ≠ [] ∧ (modo = "menor" ∨ modo = "maior" ∨ modo = "medio")) ∧
  selecionar modo todos_caminhos ≠ ErroEstacao.
Proof.
  destruct todos_caminhos as [|x l].
  { simpl. split_and!; naive_solver. }
  destruct (sorted_median_is_Some x l) as [rm Hrm].
  unfold selecionar. cbv zeta. rewrite Hrm.
  repeat case_bool_decide; subst; split_and!; naive_solver.
Qed.

(** ** No path is reported exactly when there is none *)

Lemma passeio_suffix (g : gmap string (list conexao)) (pre : list string) :
  ∀ (a0 : string) (resto ls : list string) (a : string) (post : list string),
    passeio g a0 resto ls → a0 :: resto = pre ++ a :: post →
    ∃ ls', passeio g a post ls'.
Proof.
  induction pre as [|x pre IH]; intros a0 resto ls a post Hw Heq; simpl in Heq.
  - injection Heq as -> ->. eauto.
  - injection Heq as -> ->.
    destruct (pre ++ a :: post) as [|b r] eqn:E.
    { by destruct pre. }
    destruct ls as [|l ls]; [done|]. destruct Hw as [_ Hw].
    eapply IH; [exact Hw | symmetry; exact E].
Qed.

Lemma passeio_simples (g : gmap string (list conexao)) (d : string)
    (resto : list string) :
  ∀ (a : string) (ls : list string),
    passeio g a resto ls → last (a :: resto) = Some d →
    ∃ resto' ls', passeio g a resto' ls' ∧ NoDup (a :: resto')
                  ∧ last (a :: resto') = Some d.
Proof.
  induction resto as [|b r IH]; intros a ls Hw Hlast.
  - exists [], ls. repeat split; try done. apply NoDup_singleton.
  - destruct ls as [|l ls]; [done|]. destruct Hw as [He Hw].
    rewrite last_cons_cons in Hlast.
    destruct (IH b ls Hw Hlast) as (r' & ls' & Hw' & Hnd' & Hlast').
    destruct (decide (a ∈ b :: r')) as [Hin|Hout].
    + apply list_elem_of_split in Hin as (pre & post & Heq).
      destruct (passeio_suffix g pre b r' ls' a post Hw' Heq) as [ls'' Hw''].
      exists post, ls''. repeat split; [exact Hw''| |].
      * rewrite Heq in Hnd'. apply NoDup_app in Hnd'. tauto.
      * rewrite <- Hlast', Heq. symmetry. apply last_app_cons.
    + exists (b :: r'), (l :: ls'). split; [by split|].
      split; [now apply NoDup_cons | now rewrite last_cons_cons].
Qed.

Section Chegada.

Variable gc : Q * Q → Q * Q → Q.
Variable stns : gmap string (Q * Q).
Variable grafo : gmap string (list conexao).
Variable destino : string.

(** Whatever is returned or cached for [destino] walks the graph and ends
    there. *)
Lemma recursivo_chega (fuel : nat) (atual : string) (V : gset string)
    (hora : Q) (la : option string)
    (cache cache' : gmap (string * gset string) (list Caminho))
    (ps : list Caminho) :
  cache_inv (λ a _ p, candidato_valido stns grafo a p
                      ∧ last (caminho p) = Some destino) cache →
  _encontrar_caminhos_recursivo gc stns grafo destino fuel
    atual V hora la cache = Some (Ok (ps, cache')) →
  Forall (λ p, candidato_valido stns grafo atual p
               ∧ last (caminho p) = Some destino) ps.
Proof.
  intros Hc E.
  refine (proj1 (recursivo_inv gc stns grafo destino
                   (λ a _ p, candidato_valido stns grafo a p
                             ∧ last (caminho p) = Some destino)
                   _ _ _ _ _ _ _ _ _ _ Hc E)).
  - intros _. split; [apply candidato_valido_base|done].
  - intros a W h l conexoes c ca cn p' Ha Hin _ _ Hn [Hv Hl].
    split; [eapply candidato_valido_step; eassumption|].
    destruct Hv as (resto & Hcam & _). simpl. rewrite <- Hl, Hcam.
    apply last_cons_cons.
Qed.

End Chegada.

(** X15. On an instance with an empty cache, a query between declared
    stations whose start time parses reports that no path was found exactly
    when the destination cannot be reached from the origin over edges of
    the graph. *)
Theorem nenhum_caminho_iff_unreachable (gc : Q * Q → Q * Q → Q)
    (r r' : Roteador) (origem destino hora modo : string) (resp : Resposta) :
  memo r = ∅ →
  origem ∈ dom (stations r) → destino ∈ dom (stations r) →
  encontrar_caminho gc r origem destino hora modo = Some (Ok (resp, r')) →
  (resp = NenhumCaminho ↔ ¬ alcancavel (graph r) origem destino).
Proof.
  intros H0 Ho Hd E.
  destruct (encontrar_caminho_selecionar _ _ _ _ _ _ _ _ Ho Hd E)
    as (t & todos & _ & Erec & ->).
  rewrite selecionar_NenhumCaminho.
  rewrite H0 in Erec. split.
  - intros -> (resto & ls & Hw & Hlast).
    destruct (passeio_simples _ _ _ _ _ Hw Hlast) as (resto' & ls' & Hw' & Hnd & Hl').
    destruct (recursivo_completo gc _ _ _ _ _ _ _ _ _ _ _
                (cache_completo_empty _ _) Erec) as [Hall _].
    destruct (Hall resto' ls' Hw' Hnd (λ x _, not_elem_of_empty x) Hl')
      as (p & Hp & _).
    by apply elem_of_nil in Hp.
  - intros Hun. destruct todos as [|p todos]; [done|]. exfalso. apply Hun.
    pose proof (recursivo_chega gc _ _ _ _ _ _ _ _ _ _ _
                  (cache_inv_empty _) Erec) as Hall.
    apply Forall_cons in Hall as [[(resto & Hcam & Hw & _) Hlast] _].
    exists resto, (linhas p). split; [exact Hw|]. now rewrite <- Hcam.
Qed.

Lemma nenhum_caminho_iff_unreachable_witness :
  ∃ resp, resp = NenhumCaminho ↔ ¬ alcancavel (graph Amostra.linha) "A" "C".
Proof.
  destruct linha_AC_run as (resp & r1 & E). exists resp.
  apply (nenhum_caminho_iff_unreachable Exemplo.taxi Amostra.linha r1
           "A" "C" "10:00" "menor" resp eq_refl).
  - apply in_linha. tauto.
  - apply in_linha. tauto.
  - exact E.
Defined.

(** ** Rendering a route *)

Section Mapa.

Variable stns : gmap string (Q * Q).

Lemma marcadores_inr (n : nat) (nomes : list string) :
  ∀ i,
    (Forall (λ s, s ∈ dom stns) nomes →
     ∃ ms, marcadores stns n i nomes = inr ms ∧ length ms = length nomes ∧
           ∀ j nome, nomes !! j = Some nome →
             ∃ loc, stns !! nome = Some loc ∧
                    ms !! j = Some (Marcador loc
                                      (String.append "<b>"
                                         (String.append nome "</b>"))
                                      (cor_marcador (i + j) n)
                                      (icone (i + j) n))) ∧
    (¬ Forall (λ s, s ∈ dom stns) nomes →
     marcadores stns n i nomes = inl MapaKeyError).
Proof.
  induction nomes as [|nome nomes IH]; intros i; simpl.
  - split; [|intros H; exfalso; apply H; constructor].
    intros _. exists []. repeat split. intros j x Hj. done.
  - destruct (stns !! nome) as [loc|] eqn:E.
    + destruct (IH (S i)) as [IH1 IH2]. split.
      * intros Hall. apply Forall_cons in Hall as [_ Hall].
        destruct (IH1 Hall) as (ms & -> & Hlen & Hms).
        eexists. split; [reflexivity|]. split; [simpl; lia|].
        intros [|j] x Hj; simpl in Hj.
        -- injection Hj as <-. exists loc. split; [done|].
           simpl. now rewrite Nat.add_0_r.
        -- destruct (Hms j x Hj) as (loc' & Hl & Hm).
           exists loc'. split; [done|]. simpl. rewrite Hm.
           now rewrite Nat.add_succ_r.
      * intros Hn. rewrite IH2; [done|]. intros Hall. apply Hn.
        apply Forall_cons. split; [apply elem_of_dom; eauto | done].
    + split.
      * intros Hall. apply Forall_cons in Hall as [Hin _].
        apply elem_of_dom in Hin as [? ?]. congruence.
      * done.
Qed.

Lemma polilinhas_cons (a b : string) (resto linhas : list string) :
  polilinhas stns (a :: b :: resto) linhas
  = match stns !! a with
    | None => inl MapaKeyError
    | Some ponto_a =>
        match stns !! b with
        | None => inl MapaKeyError
        | Some ponto_b =>
            match linhas with
            | [] => inl MapaIndexError
            | l :: linhas' =>
                match polilinhas stns (b :: resto) linhas' with
                | inl e => inl e
                | inr ps =>
                    inr (Polilinha ponto_a ponto_b
                           (dict_get cores_linhas l "purple")
                           (String.append "Linha: " l) :: ps)
                end
            end
        end
    end.
Proof. reflexivity. Qed.

Lemma polilinhas_inr (caminho : list string) :
  ∀ linhas,
    Forall (λ s, s ∈ dom stns) caminho →
    ((length caminho ≤ S (length linhas))%nat →
     ∃ ps, polilinhas stns caminho linhas = inr ps
           ∧ length ps = (length caminho - 1)%nat) ∧
    ((S (length linhas) < length caminho)%nat →
     polilinhas stns caminho linhas = inl MapaIndexError).
Proof.
  induction caminho as [|a caminho IH]; intros linhas Hall.
  - simpl. split; [eauto | lia].
  - destruct caminho as [|b caminho].
    { simpl. split; [eauto | lia]. }
    apply Forall_cons in Hall as [Ha Hall].
    pose proof Hall as Hall'. apply Forall_cons in Hall' as [Hb _].
    apply elem_of_dom in Ha as [pa Ea]. apply elem_of_dom in Hb as [pb Eb].
    rewrite polilinhas_cons, Ea, Eb.
    destruct linhas as [|l linhas].
    + split; [simpl; lia | done].
    + destruct (IH linhas Hall) as [IH1 IH2]. split.
      * intros Hlen. destruct IH1 as (ps & -> & Hps); [simpl in *; lia|].
        eexists. split; [reflexivity|]. simpl in *. lia.
      * intros Hlen. rewrite IH2; [done | simpl in *; lia].
Qed.

Lemma polilinhas_conteudo (caminho : list string) :
  ∀ linhas ps,
    polilinhas stns caminho linhas = inr ps →
    ∀ i a b, caminho !! i = Some a → caminho !! S i = Some b →
      ∃ l ponto_a ponto_b,
        linhas !! i = Some l ∧ stns !! a = Some ponto_a
        ∧ stns !! b = Some ponto_b
        ∧ ps !! i = Some (Polilinha ponto_a ponto_b
                            (dict_get cores_linhas l "purple")
                            (String.append "Linha: " l)).
Proof.
  induction caminho as [|a0 caminho IH]; intros linhas ps E i a b Ha Hb;
    [done|].
  destruct caminho as [|b0 caminho]; [done|].
  rewrite polilinhas_cons in E.
  destruct (stns !! a0) as [pa|] eqn:Ea; [|done].
  destruct (stns !! b0) as [pb|] eqn:Eb; [|done].
  destruct linhas as [|l0 linhas]; [done|].
  destruct (polilinhas stns (b0 :: caminho) linhas) as [e|ps'] eqn:Ep; [done|].
  injection E as <-.
  destruct i as [|i].
  - injection Ha as <-. injection Hb as <-. exists l0, pa, pb. done.
  - rewrite !lookup_cons in *. exact (IH linhas ps' Ep i a b Ha Hb).
Qed.

Lemma visualizar_caminho_inr (resultado : Caminho) :
  caminho resultado ≠ [] →
  Forall (λ s, s ∈ dom stns) (caminho resultado) →
  (length (caminho resultado) ≤ S (length (linhas resultado)))%nat →
  ∃ inicial ms ps,
    head (caminho resultado) ≫= (λ s, stns !! s) = Some inicial ∧
    _visualizar_caminho stns resultado
    = inr (Mapa inicial 14 :: ms ++ ps ++ [Salvar "trajeto_metro_londes.html"])
    ∧ length ms = length (caminho resultado)
    ∧ length ps = (length (caminho resultado) - 1)%nat.
Proof.
  intros Hne Hall Hlen. unfold _visualizar_caminho.
  destruct (caminho resultado) as [|c0 cs] eqn:Ec; [done|].
  destruct (proj1 (marcadores_inr (length (c0 :: cs)) (c0 :: cs) 0%nat) Hall)
    as (ms & -> & Hms & _).
  destruct (proj1 (polilinhas_inr (c0 :: cs) (linhas resultado) Hall) Hlen)
    as (ps & -> & Hps).
  apply Forall_cons in Hall as [H0 _]. apply elem_of_dom in H0 as [loc E0].
  rewrite E0. exists loc, ms, ps. simpl. by rewrite E0.
Qed.

(** X16. The rendering of a route succeeds exactly when its station
    sequence is not empty, every station on it has coordinates, and it has
    at least as many lines as steps. It then makes, in this order: one map
    centred on the first station at zoom 14; one marker per station, the
    i-th at the coordinates of the i-th station with its name in bold and
    the colour and icon of its position; one polyline per step, the i-th
    joining the coordinates of stations i and i+1, in the colour of line i
    (purple for a line without a colour) and labelled with that line; and
    the saving of the file. An empty station sequence or too short a line
    sequence raises [IndexError], a station without coordinates raises
    [KeyError]. *)
Theorem visualizar_caminho_succeeds (resultado : Caminho) :
  let n := length (caminho resultado) in
  ((caminho resultado ≠ [] ∧ Forall (λ s, s ∈ dom stns) (caminho resultado)
    ∧ (n ≤ S (length (linhas resultado)))%nat) →
   ∃ inicial ms ps,
     head (caminho resultado) ≫= (λ s, stns !! s) = Some inicial ∧
     _visualizar_caminho stns resultado
     = inr (Mapa inicial 14 :: ms ++ ps ++ [Salvar "trajeto_metro_londes.html"])
     ∧ length ms = n ∧ length ps = (n - 1)%nat
     ∧ (∀ i nome, caminho resultado !! i = Some nome →
          ∃ loc, stns !! nome = Some loc ∧
                 ms !! i = Some (Marcador loc
                                   (String.append "<b>"
                                      (String.append nome "</b>"))
                                   (cor_marcador i n) (icone i n)))
     ∧ (∀ i a b, caminho resultado !! i = Some a →
          caminho resultado !! S i = Some b →
          ∃ l ponto_a ponto_b,
            linhas resultado !! i = Some l ∧ stns !! a = Some ponto_a
            ∧ stns !! b = Some ponto_b
            ∧ ps !! i = Some (Polilinha ponto_a ponto_b
                                (dict_get cores_linhas l "purple")
                                (String.append "Linha: " l)))) ∧
  (caminho resultado = [] →
   _visualizar_caminho stns resultado = inl MapaIndexError) ∧
  (¬ Forall (λ s, s ∈ dom stns) (caminho resultado) →
   _visualizar_caminho stns resultado = inl MapaKeyError) ∧
  (Forall (λ s, s ∈ dom stns) (caminho resultado) →
   (S (length (linhas resultado)) < n)%nat →
   _visualizar_caminho stns resultado = inl MapaIndexError).
Proof.
  intros n. subst n. unfold _visualizar_caminho.
  destruct (caminho resultado) as [|c0 cs] eqn:Ec.
  { split_and!;
      [ intros [? _]; done
      | done
      | intros H; exfalso; apply H; constructor
      | intros _ H; simpl in H; lia ]. }
  split_and!.
  - intros (Hne & Hall & Hlen).
    destruct (proj1 (marcadores_inr (length (c0 :: cs)) (c0 :: cs) 0%nat) Hall)
      as (ms & Em & Hlm & Hms).
    destruct (proj1 (polilinhas_inr (c0 :: cs) (linhas resultado) Hall) Hlen)
      as (ps & Ep & Hps).
    pose proof (polilinhas_conteudo (c0 :: cs) (linhas resultado) ps Ep) as Hpc.
    rewrite Em, Ep.
    apply Forall_cons in Hall as [H0 _]. apply elem_of_dom in H0 as [loc E0].
    rewrite E0. exists loc, ms, ps.
    split; [simpl; by rewrite E0|]. split; [done|]. split; [done|].
    split; [done|]. split; [|exact Hpc].
    intros i nome Hi. destruct (Hms i nome Hi) as (loc' & Hl & Hm).
    exists loc'. split; [done|]. exact Hm.
  - done.
  - intros Hn.
    rewrite (proj2 (marcadores_inr (length (c0 :: cs)) (c0 :: cs) 0%nat) Hn).
    now destruct (stns !! c0).
  - intros Hall Hlen.
    destruct (proj1 (marcadores_inr (length (c0 :: cs)) (c0 :: cs) 0%nat) Hall)
      as (ms & -> & _).
    rewrite (proj2 (polilinhas_inr (c0 :: cs) (linhas resultado) Hall) Hlen).
    apply Forall_cons in Hall as [H0 _]. apply elem_of_dom in H0 as [loc E0].
    now rewrite E0.
Qed.

(** X17. In a rendering that succeeds, the call after the map is the marker
    of the first station and the i-th station gets the (i+1)-th call: a
    marker at its coordinates with its name in bold; green with a play icon
    for the first station, red with a stop icon for the last station of a
    path of two or more, blue with an info icon in between. A path of a
    single station gets one marker, the green one. *)
Theorem visualizar_caminho_markers (resultado : Caminho) (ds : list desenho)
    (i : nat) (nome : string) :
  _visualizar_caminho stns resultado = inr ds →
  caminho resultado !! i = Some nome →
  let n := length (caminho resultado) in
  ∃ loc,
    stns !! nome = Some loc ∧
    ds !! S i
    = Some (Marcador loc (String.append "<b>" (String.append nome "</b>"))
              (if decide (i = 0%nat) then "green"
               else if decide (i = (n - 1)%nat) then "red" else "blue")
              (if decide (i = 0%nat) then "play"
               else if decide (i = (n - 1)%nat) then "stop" else "info")).
Proof.
  intros E Hi n. subst n. unfold _visualizar_caminho in E.
  destruct (caminho resultado) as [|c0 cs] eqn:Ec; [done|].
  destruct (stns !! c0) as [loc0|] eqn:E0; [|done].
  destruct (decide (Forall (λ s, s ∈ dom stns) (c0 :: cs))) as [Hall|Hn].
  - destruct (proj1 (marcadores_inr (length (c0 :: cs)) (c0 :: cs) 0%nat) Hall)
      as (ms & Em & Hlen & Hms).
    rewrite Em in E.
    destruct (polilinhas stns (c0 :: cs) (linhas resultado)) as [e|ps]; [done|].
    injection E as <-.
    destruct (Hms i nome Hi) as (loc & Hl & Hm).
    exists loc. split; [done|]. rewrite lookup_cons.
    rewrite lookup_app_l by (apply lookup_lt_Some in Hm; lia).
    rewrite Hm. unfold cor_marcador, icone. simpl "+"%nat.
    do 2 f_equal.
    + destruct (decide (i = 0%nat)) as [->|Hi0]; [done|].
      rewrite (proj2 (Nat.eqb_neq _ _) Hi0).
      destruct (decide (i = (length (c0 :: cs) - 1)%nat)) as [->|Hil].
      * now rewrite Nat.eqb_refl.
      * now rewrite (proj2 (Nat.eqb_neq _ _) Hil).
    + destruct (decide (i = 0%nat)) as [->|Hi0]; [done|].
      rewrite (proj2 (Nat.eqb_neq _ _) Hi0).
      destruct (decide (i = (length (c0 :: cs) - 1)%nat)) as [->|Hil].
      * now rewrite Nat.eqb_refl.
      * now rewrite (proj2 (Nat.eqb_neq _ _) Hil).
  - rewrite (proj2 (marcadores_inr (length (c0 :: cs)) (c0 :: cs) 0%nat) Hn)
      in E. done.
Qed.

End Mapa.

Lemma visualizar_caminho_succeeds_witness :
  ∃ inicial ms ps,
    head (caminho Amostra.rota_abc) ≫= (λ s, Exemplo.estacoes_linha !! s)
    = Some inicial ∧
    _visualizar_caminho Exemplo.estacoes_linha Amostra.rota_abc
    = inr (Mapa inicial 14 :: ms ++ ps ++ [Salvar "trajeto_metro_londes.html"])
    ∧ length ms = 3%nat ∧ length ps = 2%nat
    ∧ (∀ i nome, caminho Amostra.rota_abc !! i = Some nome →
         ∃ loc, Exemplo.estacoes_linha !! nome = Some loc ∧
                ms !! i = Some (Marcador loc
                                  (String.append "<b>"
                                     (String.append nome "</b>"))
                                  (cor_marcador i 3) (icone i 3)))
    ∧ (∀ i a b, caminho Amostra.rota_abc !! i = Some a →
         caminho Amostra.rota_abc !! S i = Some b →
         ∃ l ponto_a ponto_b,
           linhas Amostra.rota_abc !! i = Some l
           ∧ Exemplo.estacoes_linha !! a = Some ponto_a
           ∧ Exemplo.estacoes_linha !! b = Some ponto_b
           ∧ ps !! i = Some (Polilinha ponto_a ponto_b
                               (dict_get cores_linhas l "purple")
                               (String.append "Linha: " l))).
Proof.
  apply (proj1 (visualizar_caminho_succeeds Exemplo.estacoes_linha
                  Amostra.rota_abc)).
  split; [discriminate|]. split; [|simpl; lia].
  repeat constructor; apply in_linha; tauto.
Defined.

Lemma visualizar_caminho_markers_witness :
  ∃ ds loc,
    _visualizar_caminho Exemplo.estacoes_linha Amostra.rota_abc = inr ds ∧
    ds !! 3%nat = Some (Marcador loc "<b>C</b>" "red" "stop").
Proof.
  eexists. 
  destruct (visualizar_caminho_markers Exemplo.estacoes_linha Amostra.rota_abc
              _ 2 "C" ltac:(vm_compute; reflexivity) eq_refl) as (loc & _ & H).
  exists loc. split; [reflexivity | exact H].
Defined.

(** X18. Every route answered on an instance that started with an empty
    cache can be rendered: the rendering raises nothing and makes two calls
    per station plus one, whatever queries came before. *)
Theorem consultas_render (gc : Q * Q → Q * Q → Q) (r0 r : Roteador)
    (qs : list (string * string * string * string)) (resps : list Resposta) :
  memo r0 = ∅ →
  Exemplo.consultas gc r0 qs = Some (Ok (resps, r)) →
  Forall (λ resp, ∀ p, resp = Rota p →
            ∃ ds, _visualizar_caminho (stations r0) p = inr ds
                  ∧ length ds = (2 * length (caminho p) + 1)%nat)
         resps.
Proof.
  intros H0 E.
  destruct (consultas_inv gc
              (λ a _ p, candidato_valido (stations r0) (graph r0) a p)
              (λ d _, candidato_valido_base _ _ d)
              (stations r0) (graph r0) qs) with (r0 := r0) (r := r)
              (resps := resps) as (_ & _ & _ & Hall); try done.
  - intros atual V h la conexoes c ca cn p' Ha Hin _ _ Hn Hp'.
    eapply candidato_valido_step; eassumption.
  - rewrite H0. apply cache_inv_empty.
  - clear E. induction Hall as [|q resp qs resps Hq _ IH]; constructor; [|exact IH].
    intros p Hp. destruct (Hq p Hp) as [Ho (resto & Hcam & Hw & Hdom & _)].
    destruct (visualizar_caminho_inr (stations r0) p)
      as (loc & ms & ps & _ & -> & Hms & Hps).
    + now rewrite Hcam.
    + rewrite Hcam. apply Forall_cons. by split.
    + rewrite Hcam. simpl. apply passeio_length in Hw. lia.
    + eexists. split; [reflexivity|].
      simpl. rewrite !length_app. simpl. rewrite Hms, Hps, Hcam. simpl. lia.
Qed.

Lemma consultas_render_witness :
  ∃ resps,
    Forall (λ resp, ∀ p, resp = Rota p →
              ∃ ds, _visualizar_caminho (stations Amostra.linha) p = inr ds
                    ∧ length ds = (2 * length (caminho p) + 1)%nat)
           resps ∧ length resps = 3%nat.
Proof.
  destruct tres_consultas_run as (resps & r & E & Hn).
  exists resps. split; [|exact Hn].
  apply (consultas_render Exemplo.taxi Amostra.linha r Amostra.tres_consultas
           resps eq_refl E).
Defined.

(** ** The three modes against each other *)

Lemma min_go_le (x : Caminho) (l : list Caminho) (q : Caminho) :
  q ∈ x :: l → (tempo (min_go x l) <= tempo q)%Q.
Proof.
  intros Hq.
  destruct (min_go_first l [] x []) as (pre & post & Heq & H1 & H2);
    try (intros ? H; by apply elem_of_nil in H).
  simpl in Heq. rewrite Heq in Hq.
  apply elem_of_app in Hq as [Hq|Hq]; [apply Qlt_le_weak; auto|].
  apply elem_of_cons in Hq as [->|Hq]; [apply Qle_refl | auto].
Qed.

Lemma max_go_ge (x : Caminho) (l : list Caminho) (q : Caminho) :
  q ∈ x :: l → (tempo q <= tempo (max_go x l))%Q.
Proof.
  intros Hq.
  destruct (max_go_first l [] x []) as (pre & post & Heq & H1 & H2);
    try (intros ? H; by apply elem_of_nil in H).
  simpl in Heq. rewrite Heq in Hq.
  apply elem_of_app in Hq as [Hq|Hq]; [apply Qlt_le_weak; auto|].
  apply elem_of_cons in Hq as [->|Hq]; [apply Qle_refl | auto].
Qed.

(** X19. On a non-empty collection the three modes are ordered: the route
    of the median mode is never faster than the route of the fastest mode
    and never slower than the route of the slowest mode. *)
Theorem modos_ordenados (todos_caminhos : list Caminho) :
  todos_caminhos ≠ [] →
  ∃ rmin rmed rmax,
    selecionar "menor" todos_caminhos = Rota rmin ∧
    selecionar "medio" todos_caminhos = Rota rmed ∧
    selecionar "maior" todos_caminhos = Rota rmax ∧
    (tempo rmin <= tempo rmed)%Q ∧ (tempo rmed <= tempo rmax)%Q.
Proof.
  intros Hne. destruct todos_caminhos as [|x l]; [done|].
  destruct (sorted_median_is_Some x l) as [rm Hrm].
  assert (Hmed : selecionar "medio" (x :: l) = Rota rm).
  { unfold selecionar. cbv zeta. rewrite Hrm.
    rewrite !bool_decide_eq_false_2 by discriminate.
    now rewrite bool_decide_eq_true_2 by reflexivity. }
  exists (min_go x l), rm, (max_go x l).
  pose proof (selecionar_in _ _ _ Hmed) as Hin.
  split_and!; try done.
  - now apply min_go_le.
  - now apply max_go_ge.
Qed.

(** X20. The total time that the fastest mode and the slowest mode report
    does not depend on the order in which the candidates were enumerated:
    two collections that are rearrangements of each other give routes of
    equal total time. *)
Theorem extremos_order_independent (todos todos' : list Caminho)
    (modo : string) (r r' : Caminho) :
  todos ≡ₚ todos' →
  modo = "menor" ∨ modo = "maior" →
  selecionar modo todos = Rota r → selecionar modo todos' = Rota r' →
  (tempo r == tempo r')%Q.
Proof.
  intros Hperm Hm E E'.
  pose proof (selecionar_in _ _ _ E) as Hin.
  pose proof (selecionar_in _ _ _ E') as Hin'.
  rewrite Hperm in Hin. rewrite <- Hperm in Hin'.
  destruct todos as [|x l]; [by apply elem_of_nil in Hin'|].
  destruct todos' as [|x' l']; [by apply elem_of_nil in Hin|].
  destruct Hm as [-> | ->]; simpl in E, E';
    injection E as <-; injection E' as <-; apply Qle_antisym.
  - now apply min_go_le.
  - now apply min_go_le.
  - now apply max_go_ge.
  - now apply max_go_ge.
Qed.

Lemma modos_ordenados_witness :
  ∃ rmin rmed rmax,
    selecionar "menor" Exemplo.quatro_caminhos = Rota rmin ∧
    selecionar "medio" Exemplo.quatro_caminhos = Rota rmed ∧
    selecionar "maior" Exemplo.quatro_caminhos = Rota rmax ∧
    (tempo rmin <= tempo rmed)%Q ∧ (tempo rmed <= tempo rmax)%Q.
Proof. apply (modos_ordenados Exemplo.quatro_caminhos). discriminate. Defined.

Lemma extremos_order_independent_witness :
  ∃ r r',
    selecionar "maior" Exemplo.quatro_caminhos = Rota r ∧
    selecionar "maior" (reverse Exemplo.quatro_caminhos) = Rota r' ∧
    (tempo r == tempo r')%Q.
Proof.
  eexists _, _. split; [reflexivity|]. split; [reflexivity|].
  apply (extremos_order_independent Exemplo.quatro_caminhos
           (reverse Exemplo.quatro_caminhos) "maior").
  - symmetry. apply reverse_Permutation.
  - tauto.
  - reflexivity.
  - reflexivity.
Defined.
